(** * Batch reservation of TTM buffer objects

    A model of [drivers/gpu/drm/ttm/ttm_execbuf_util.c]: the three exported
    procedures [ttm_eu_reserve_buffers], [ttm_eu_backoff_reservation] and
    [ttm_eu_fence_buffer_objects] and the static helper
    [ttm_eu_backoff_reservation_reverse].

    The procedures are written in explicit state-passing style over a
    [world] that holds the reservation object of every buffer, the global
    LRU list, the life cycle of the acquire contexts, the answers the
    environment will give to the calls that can block or fail, and the
    chronological record of the calls made to the collaborators. *)

From Stdlib Require Import List ZArith Lia Bool Arith PeanoNat Permutation.
Import ListNotations.
Local Open Scope Z_scope.

(* ================================================================== *)
(** ** Error numbers *)

Module Errno.
Definition EINTR : Z := 4.
Definition ENOMEM : Z := 12.
Definition EBUSY : Z := 16.
Definition EDEADLK : Z := 35.
Definition EALREADY : Z := 114.
Definition ERESTARTSYS : Z := 512.
End Errno.
Import Errno.

(* ================================================================== *)
(** ** Data *)

(** A buffer object, a fence and an acquire context are known by their
    address. *)
Definition ttm_buffer_object := nat.
Definition dma_fence := nat.
Definition ww_acquire_ctx := nat.

(** [struct ttm_validate_buffer]: the [head] field is the position of the
    entry in the list that carries it. *)
Record ttm_validate_buffer : Type := mk_validate_buffer {
  bo : ttm_buffer_object;
  num_shared : nat
}.

(** Who holds a reservation lock: the batch under study ([Self], which is
    its ticket when it has one) or anybody else. *)
Inductive owner : Type := Self | Other.

(** The reservation object of a buffer. *)
Record dma_resv : Type := mk_resv {
  lock : option owner;
  fence_excl : option dma_fence;
  fence_shared : list dma_fence;
  shared_max : nat
}.

Inductive ctx_phase : Type := CtxIdle | CtxInit | CtxDone | CtxFini.

(** What the environment answers to a call that can block or fail.  Each
    such call reads one answer, and takes an answer that does not concern
    it for no obstacle. *)
Inductive env_event : Type :=
| EvGrant     (* nothing stands in the way *)
| EvBusy      (* another context holds the lock and the caller has to give way *)
| EvSignal    (* a signal arrives while the caller sleeps *)
| EvNoMem.    (* the allocator is exhausted *)

(** The calls to the collaborators, with their return value where they have
    one. *)
Inductive call : Type :=
| c_ww_acquire_init (t : ww_acquire_ctx)
| c_ww_acquire_done (t : ww_acquire_ctx)
| c_ww_acquire_fini (t : ww_acquire_ctx)
| c_reserve (b : ttm_buffer_object) (ret : Z)
| c_lock_slow (b : ttm_buffer_object) (ret : Z)
| c_unlock (b : ttm_buffer_object)
| c_reserve_shared (b : ttm_buffer_object) (n : nat) (ret : Z)
| c_add_shared_fence (b : ttm_buffer_object) (f : dma_fence)
| c_add_excl_fence (b : ttm_buffer_object) (f : dma_fence)
| c_move_to_lru_tail (b : ttm_buffer_object)
| c_spin_lock
| c_spin_unlock.

(** The state shared by the procedures: the reservation object of every
    buffer, the LRU list, the phase of every acquire context, the answers
    still to come from the environment ([script]) and the calls made so
    far, oldest first ([trace]). *)
Record world : Type := mk_world {
  resv : ttm_buffer_object -> dma_resv;
  lru : list ttm_buffer_object;
  acquire : ww_acquire_ctx -> ctx_phase;
  script : list env_event;
  trace : list call
}.

Definition lock_of (w : world) (b : ttm_buffer_object) : option owner :=
  lock (resv w b).

Definition upd {A : Type} (f : nat -> A) (k : nat) (v : A) : nat -> A :=
  fun k' => if Nat.eqb k' k then v else f k'.

Definition set_resv (w : world) (b : ttm_buffer_object) (r : dma_resv) : world :=
  mk_world (upd (resv w) b r) (lru w) (acquire w) (script w) (trace w).

Definition set_lock (w : world) (b : ttm_buffer_object) (o : option owner) : world :=
  let r := resv w b in
  set_resv w b (mk_resv o (fence_excl r) (fence_shared r) (shared_max r)).

Definition set_lru (w : world) (l : list ttm_buffer_object) : world :=
  mk_world (resv w) l (acquire w) (script w) (trace w).

Definition set_phase (w : world) (t : ww_acquire_ctx) (p : ctx_phase) : world :=
  mk_world (resv w) (lru w) (upd (acquire w) t p) (script w) (trace w).

Definition emit (w : world) (c : call) : world :=
  mk_world (resv w) (lru w) (acquire w) (script w) (trace w ++ [c]).

(** Takes the next answer of the environment; an exhausted script means
    that the environment raises no further obstacle. *)
Definition next_event (w : world) : env_event * world :=
  match script w with
  | [] => (EvGrant, w)
  | e :: s => (e, mk_world (resv w) (lru w) (acquire w) s (trace w))
  end.

(* ================================================================== *)
(** ** Collaborators *)

(** Modelled from the spec: [ww_acquire_init], [ww_acquire_done] and
    [ww_acquire_fini] (linux/ww_mutex.h), the ticket life cycle helpers
    [begin_batch] and [end_batch] of the spec. *)
Definition ww_acquire_init (w : world) (t : ww_acquire_ctx) : world :=
  emit (set_phase w t CtxInit) (c_ww_acquire_init t).

Definition ww_acquire_done (w : world) (t : ww_acquire_ctx) : world :=
  emit (set_phase w t CtxDone) (c_ww_acquire_done t).

Definition ww_acquire_fini (w : world) (t : ww_acquire_ctx) : world :=
  emit (set_phase w t CtxFini) (c_ww_acquire_fini t).

(** Modelled from the spec: the lock attempt of a Resource,
    [__ttm_bo_reserve] (drm/ttm/ttm_bo_driver.h).  Without a ticket the
    caller asks not to wait and the attempt is a [try_lock] that answers
    [-EBUSY] when the lock is taken.  With a ticket the attempt answers
    [-EALREADY] when this very ticket holds the lock, [-EDEADLK] when the
    caller has to give way to another context, the restart code when a
    cancellable wait is interrupted, and [0] once the lock is held. *)
Definition __ttm_bo_reserve (w : world) (b : ttm_buffer_object)
    (interruptible no_wait : bool) (ticket : option ww_acquire_ctx)
    : world * Z :=
  let answer (w : world) (ret : Z) := (emit w (c_reserve b ret), ret) in
  if no_wait then
    match ticket with
    | Some _ => answer w (- EBUSY)
    | None =>
        match lock_of w b with
        | Some _ => answer w (- EBUSY)
        | None =>
            let '(e, w) := next_event w in
            match e with
            | EvBusy => answer (set_lock w b (Some Other)) (- EBUSY)
            | _ => answer (set_lock w b (Some Self)) 0
            end
        end
    end
  else
    match lock_of w b, ticket with
    | Some Self, Some _ => answer w (- EALREADY)
    | _, _ =>
        let '(e, w) := next_event w in
        match e with
        | EvBusy => answer (set_lock w b (Some Other)) (- EDEADLK)
        | EvSignal =>
            if interruptible
            then answer (set_lock w b (Some Other)) (- ERESTARTSYS)
            else answer (set_lock w b (Some Self)) 0
        | _ => answer (set_lock w b (Some Self)) 0
        end
    end.

(** Modelled from the spec: [lock_priority_wait(cancellable)],
    [dma_resv_lock_slow_interruptible] (linux/dma-resv.h).  The caller
    holds no other lock of its ticket and sleeps until the lock is its
    own, unless a signal interrupts the sleep. *)
Definition dma_resv_lock_slow_interruptible (w : world)
    (b : ttm_buffer_object) (ticket : option ww_acquire_ctx) : world * Z :=
  let '(e, w) := next_event w in
  match e with
  | EvSignal => (emit (set_lock w b (Some Other)) (c_lock_slow b (- EINTR)), - EINTR)
  | _ => (emit (set_lock w b (Some Self)) (c_lock_slow b 0), 0)
  end.

(** Modelled from the spec: [lock_priority_wait] of a batch that cannot be
    cancelled, [dma_resv_lock_slow] (linux/dma-resv.h). *)
Definition dma_resv_lock_slow (w : world) (b : ttm_buffer_object)
    (ticket : option ww_acquire_ctx) : world :=
  let '(_, w) := next_event w in
  emit (set_lock w b (Some Self)) (c_lock_slow b 0).

(** Modelled from the spec: [unlock], [dma_resv_unlock]
    (linux/dma-resv.h). *)
Definition dma_resv_unlock (w : world) (b : ttm_buffer_object) : world :=
  emit (set_lock w b None) (c_unlock b).

(** Modelled from the spec: [reserve_shared_slots(n)],
    [dma_resv_reserve_shared] (drivers/dma-buf/dma-resv.c): room for [n]
    more shared markers, or [-ENOMEM]. *)
Definition dma_resv_reserve_shared (w : world) (b : ttm_buffer_object)
    (n : nat) : world * Z :=
  let '(e, w) := next_event w in
  match e with
  | EvNoMem => (emit w (c_reserve_shared b n (- ENOMEM)), - ENOMEM)
  | _ =>
      let r := resv w b in
      let r' := mk_resv (lock r) (fence_excl r) (fence_shared r)
                  (Nat.max (shared_max r) (length (fence_shared r) + n)) in
      (emit (set_resv w b r') (c_reserve_shared b n 0), 0)
  end.

(** Modelled from the spec: [attach_marker(shared, marker)],
    [dma_resv_add_shared_fence] (drivers/dma-buf/dma-resv.c). *)
Definition dma_resv_add_shared_fence (w : world) (b : ttm_buffer_object)
    (f : dma_fence) : world :=
  let r := resv w b in
  emit (set_resv w b
          (mk_resv (lock r) (fence_excl r) (fence_shared r ++ [f]) (shared_max r)))
       (c_add_shared_fence b f).

(** Modelled from the spec: [attach_marker(exclusive, marker)],
    [dma_resv_add_excl_fence] (drivers/dma-buf/dma-resv.c); the exclusive
    marker supersedes the shared markers recorded before it. *)
Definition dma_resv_add_excl_fence (w : world) (b : ttm_buffer_object)
    (f : dma_fence) : world :=
  let r := resv w b in
  emit (set_resv w b (mk_resv (lock r) (Some f) [] (shared_max r)))
       (c_add_excl_fence b f).

(** Modelled from the spec: [move_to_tail(resource)],
    [ttm_bo_move_to_lru_tail] (drivers/gpu/drm/ttm/ttm_bo.c). *)
Definition ttm_bo_move_to_lru_tail (w : world) (b : ttm_buffer_object) : world :=
  emit (set_lru w (filter (fun x => negb (Nat.eqb x b)) (lru w) ++ [b]))
       (c_move_to_lru_tail b).

(** Modelled from the spec: the short critical section of the LRU list,
    [spin_lock] and [spin_unlock] on [ttm_bo_glob.lru_lock]. *)
Definition spin_lock (w : world) : world := emit w c_spin_lock.
Definition spin_unlock (w : world) : world := emit w c_spin_unlock.

(* ================================================================== *)
(** ** Lists (linux/list.h)

    A [struct list_head] chain is the list of its entries; a cursor is the
    index of an entry, and [None] is the list head itself. *)

Definition list_empty {A : Type} (l : list A) : bool :=
  match l with [] => true | _ => false end.

Definition list_del {A : Type} (pos : nat) (l : list A) : list A :=
  firstn pos l ++ skipn (S pos) l.

(** [list_add] inserts right after the list head. *)
Definition list_add {A : Type} (x : A) (l : list A) : list A := x :: l.

Definition list_prev_entry (pos : nat) : option nat :=
  match pos with O => None | S p => Some p end.

Definition list_next_entry (cursor : option nat) : nat :=
  match cursor with None => O | Some p => S p end.

(* ================================================================== *)
(** ** The procedures of ttm_execbuf_util.c *)

(** [list_for_each_entry_continue_reverse]: from the entry before [pos]
    back to the first one. *)
Fixpoint ttm_eu_backoff_reservation_reverse (w : world)
    (vlist : list ttm_validate_buffer) (pos : nat) : world :=
  match pos with
  | O => w
  | S p =>
      match nth_error vlist p with
      | Some entry =>
          ttm_eu_backoff_reservation_reverse (dma_resv_unlock w (bo entry)) vlist p
      | None => ttm_eu_backoff_reservation_reverse w vlist p
      end
  end.

Definition backoff_entry (w : world) (entry : ttm_validate_buffer) : world :=
  dma_resv_unlock (ttm_bo_move_to_lru_tail w (bo entry)) (bo entry).

Definition ttm_eu_backoff_reservation (w : world)
    (ticket : option ww_acquire_ctx) (vlist : list ttm_validate_buffer) : world :=
  if list_empty vlist then w
  else
    let w := spin_lock w in
    let w := fold_left backoff_entry vlist w in
    let w := spin_unlock w in
    match ticket with
    | Some t => ww_acquire_fini w t
    | None => w
    end.

Definition fence_entry (fence : dma_fence) (w : world)
    (entry : ttm_validate_buffer) : world :=
  let b := bo entry in
  let w := if negb (Nat.eqb (num_shared entry) 0)
           then dma_resv_add_shared_fence w b fence
           else dma_resv_add_excl_fence w b fence in
  let w := ttm_bo_move_to_lru_tail w b in
  dma_resv_unlock w b.

Definition ttm_eu_fence_buffer_objects (w : world)
    (ticket : option ww_acquire_ctx) (vlist : list ttm_validate_buffer)
    (fence : dma_fence) : world :=
  if list_empty vlist then w
  else
    let w := spin_lock w in
    let w := fold_left (fence_entry fence) vlist w in
    let w := spin_unlock w in
    match ticket with
    | Some t => ww_acquire_fini w t
    | None => w
    end.

(** The outcome of a reservation: the world, the validate list and the
    duplicates list as they are left, and the return value. *)
Definition reserve_result : Type :=
  (world * list ttm_validate_buffer * option (list ttm_validate_buffer) * Z)%type.

Definition is_null {A : Type} (p : option A) : bool :=
  match p with None => true | Some _ => false end.

(** The body of [list_for_each_entry] in [ttm_eu_reserve_buffers], with the
    cursor [pos] on the current entry.  The loop has no bound of its own:
    [fuel] counts the iterations that are left. *)
Fixpoint reserve_loop (fuel : nat) (ticket : option ww_acquire_ctx)
    (intr : bool) (w : world) (vlist : list ttm_validate_buffer) (pos : nat)
    (dups : option (list ttm_validate_buffer)) : option reserve_result :=
  match nth_error vlist pos with
  | None => Some (w, vlist, dups, 0)
  | Some entry =>
    match fuel with
    | O => None
    | S fuel =>
      let b := bo entry in
      let '(w, ret) := __ttm_bo_reserve w b intr (is_null ticket) ticket in
      match Z.eqb ret (- EALREADY), dups with
      | true, Some d =>
          let safe := pos in
          let entry' := list_prev_entry pos in
          let vlist := list_del safe vlist in
          let d := list_add entry d in
          reserve_loop fuel ticket intr w vlist (list_next_entry entry') (Some d)
      | _, _ =>
          let '(w, ret, locked) :=
            if Z.eqb ret 0 then
              if Nat.eqb (num_shared entry) 0 then (w, ret, true)
              else
                let '(w, ret) := dma_resv_reserve_shared w b (num_shared entry) in
                (w, ret, Z.eqb ret 0)
            else (w, ret, false) in
          if locked then
            reserve_loop fuel ticket intr w vlist (list_next_entry (Some pos)) dups
          else
            let w := ttm_eu_backoff_reservation_reverse w vlist pos in
            let '(w, ret) :=
              if Z.eqb ret (- EDEADLK) then
                if intr then dma_resv_lock_slow_interruptible w b ticket
                else (dma_resv_lock_slow w b ticket, 0)
              else (w, ret) in
            let '(w, ret) :=
              if Z.eqb ret 0 && negb (Nat.eqb (num_shared entry) 0)
              then dma_resv_reserve_shared w b (num_shared entry)
              else (w, ret) in
            if negb (Z.eqb ret 0) then
              let ret := if Z.eqb ret (- EINTR) then - ERESTARTSYS else ret in
              let w := match ticket with
                       | Some t => ww_acquire_fini (ww_acquire_done w t) t
                       | None => w
                       end in
              Some (w, vlist, dups, ret)
            else
              let vlist := list_add entry (list_del pos vlist) in
              reserve_loop fuel ticket intr w vlist (list_next_entry (Some O)) dups
      end
    end
  end.

(** Iterations that suffice for the scan: every return to the front of the
    list uses up an answer of the environment. *)
Definition reserve_fuel (w : world) (vlist : list ttm_validate_buffer) : nat :=
  (S (length (script w)) * S (length vlist))%nat.

Definition ttm_eu_reserve_buffers_fuel (fuel : nat) (w : world)
    (ticket : option ww_acquire_ctx) (vlist : list ttm_validate_buffer)
    (intr : bool) (dups : option (list ttm_validate_buffer))
    : option reserve_result :=
  if list_empty vlist then Some (w, vlist, dups, 0)
  else
    let w := match ticket with
             | Some t => ww_acquire_init w t
             | None => w
             end in
    reserve_loop fuel ticket intr w vlist O dups.

Definition ttm_eu_reserve_buffers (w : world)
    (ticket : option ww_acquire_ctx) (vlist : list ttm_validate_buffer)
    (intr : bool) (dups : option (list ttm_validate_buffer))
    : option reserve_result :=
  ttm_eu_reserve_buffers_fuel (reserve_fuel w vlist) w ticket vlist intr dups.

(* ================================================================== *)
(** ** Small worlds and entries *)

Definition resv0 : dma_resv := mk_resv None None [] 0.

Definition world0 (l : list ttm_buffer_object) (s : list env_event) : world :=
  mk_world (fun _ => resv0) l (fun _ => CtxIdle) s [].

Definition vb (b : ttm_buffer_object) (n : nat) : ttm_validate_buffer :=
  mk_validate_buffer b n.
Arguments vb (b n)%_nat_scope.

(* ================================================================== *)
(** ** Vocabulary of the statements *)

(** Releasing the locks of a sequence of buffers, first to last. *)
Definition unlock_all (w : world) (bs : list ttm_buffer_object) : world :=
  fold_left dma_resv_unlock bs w.

(** The LRU list once [b] has gone to its tail. *)
Definition lru_move (l : list ttm_buffer_object) (b : ttm_buffer_object)
    : list ttm_buffer_object :=
  filter (fun x => negb (Nat.eqb x b)) l ++ [b].

(** The LRU list without the buffers [bs]. *)
Definition lru_without (l bs : list ttm_buffer_object) : list ttm_buffer_object :=
  filter (fun x => negb (existsb (Nat.eqb x) bs)) l.

(** What a sweep records for one entry. *)
Definition backoff_calls (e : ttm_validate_buffer) : list call :=
  [c_move_to_lru_tail (bo e); c_unlock (bo e)].

Definition fence_calls (fence : dma_fence) (e : ttm_validate_buffer) : list call :=
  [ if Nat.eqb (num_shared e) 0 then c_add_excl_fence (bo e) fence
    else c_add_shared_fence (bo e) fence;
    c_move_to_lru_tail (bo e); c_unlock (bo e) ].

(** The call that ends a release sweep when a ticket was supplied. *)
Definition fini_calls (ticket : option ww_acquire_ctx) : list call :=
  match ticket with
  | Some t => [c_ww_acquire_fini t]
  | None => []
  end.

(** Lines 105-113: the shared slots of an entry whose lock attempt
    answered [ret]. *)
Definition reserve_slots (w : world) (entry : ttm_validate_buffer) (ret : Z)
    : world * Z :=
  if Z.eqb ret 0 then
    if Nat.eqb (num_shared entry) 0 then (w, 0)
    else dma_resv_reserve_shared w (bo entry) (num_shared entry)
  else (w, ret).

(** Lines 121-133: what follows the partial rollback. *)
Definition recover (ticket : option ww_acquire_ctx) (intr : bool) (w : world)
    (entry : ttm_validate_buffer) (ret : Z) : world * Z :=
  let '(w, ret) :=
    if Z.eqb ret (- EDEADLK) then
      if intr then dma_resv_lock_slow_interruptible w (bo entry) ticket
      else (dma_resv_lock_slow w (bo entry) ticket, 0)
    else (w, ret) in
  if Z.eqb ret 0 && negb (Nat.eqb (num_shared entry) 0)
  then dma_resv_reserve_shared w (bo entry) (num_shared entry)
  else (w, ret).

(** Lines 136-141: the error that is reported and the end of the ticket. *)
Definition report (ret : Z) : Z :=
  if Z.eqb ret (- EINTR) then - ERESTARTSYS else ret.

Definition teardown (ticket : option ww_acquire_ctx) (w : world) : world :=
  match ticket with
  | Some t => ww_acquire_fini (ww_acquire_done w t) t
  | None => w
  end.

(** The batch holds the locks of the entries [prev] before the cursor,
    one resource each, and no other lock. *)
Definition reserve_inv (w : world) (prev : list ttm_validate_buffer) : Prop :=
  NoDup (map bo prev) /\
  forall b, lock_of w b = Some Self <-> In b (map bo prev).

Definition nothing_held (w : world) : Prop :=
  forall b, lock_of w b <> Some Self.

Ltac errno_lia :=
  unfold EINTR, ENOMEM, EBUSY, EDEADLK, EALREADY, ERESTARTSYS in *; lia.

Ltac lock_facts :=
  repeat match goal with
  | |- _ /\ _ => split
  | |- forall _, _ => intro
  end;
  unfold lock_of, set_lock, set_resv, upd in *; simpl in *;
  try match goal with
  | |- context [Nat.eqb ?x ?y] => destruct (Nat.eqb_spec x y); subst; simpl
  end;
  try solve [reflexivity | lia | congruence | intuition congruence].

(** The calls that end a failed reservation. *)
Definition teardown_calls (ticket : option ww_acquire_ctx) : list call :=
  match ticket with
  | Some t => [c_ww_acquire_done t; c_ww_acquire_fini t]
  | None => []
  end.

(** The state in which [ttm_eu_reserve_buffers] returns [r]. *)
Definition reserve_post (ticket : option ww_acquire_ctx) (w' : world)
    (l' : list ttm_validate_buffer) (r : Z) : Prop :=
  (r = 0 \/ r = - EALREADY \/ r = - EBUSY \/ r = - ERESTARTSYS \/ r = - ENOMEM) /\
  (r = 0 -> reserve_inv w' l') /\
  (r <> 0 -> r <> - ENOMEM -> nothing_held w') /\
  (r = - ENOMEM ->
   exists e, In e l' /\ num_shared e <> 0%nat /\
             forall b, lock_of w' b = Some Self <-> b = bo e) /\
  (r <> 0 ->
   (forall t, ticket = Some t -> acquire w' t = CtxFini) /\
   exists tr, trace w' = tr ++ teardown_calls ticket).

(** What is observed of a reservation: the calls made, the two lists as
    they are left and the return value. *)
Definition observe (res : option reserve_result)
    : option (list call * list ttm_validate_buffer
              * option (list ttm_validate_buffer) * Z) :=
  match res with
  | Some (w, l, d, r) => Some (trace w, l, d, r)
  | None => None
  end.

(** The world after the entries [l] were locked in turn, every lock
    attempt and every slot reservation answering 0; [None] when one of
    them answers anything else. *)
Fixpoint immediate_scan (ticket : option ww_acquire_ctx) (intr : bool)
    (w : world) (l : list ttm_validate_buffer) : option world :=
  match l with
  | [] => Some w
  | e :: l =>
      let '(w1, r1) := __ttm_bo_reserve w (bo e) intr (is_null ticket) ticket in
      let '(w2, r2) := reserve_slots w1 e r1 in
      if Z.eqb r2 0 then immediate_scan ticket intr w2 l else None
  end.

(** The world in which the scan of [ttm_eu_reserve_buffers] starts. *)
Definition with_ticket (w : world) (ticket : option ww_acquire_ctx) : world :=
  match ticket with
  | Some t => ww_acquire_init w t
  | None => w
  end.

(** The environment raises no obstacle from now on. *)
Definition calm (w : world) : Prop :=
  Forall (fun ev => ev = EvGrant) (script w).

(** What the scan records for an entry that is locked at once. *)
Definition lock_calls (e : ttm_validate_buffer) : list call :=
  c_reserve (bo e) 0
  :: (if Nat.eqb (num_shared e) 0 then []
      else [c_reserve_shared (bo e) (num_shared e) 0]).

(** The world in which ticket [t] has locked the entries [l] at once, from
    a world where nothing is locked and the environment follows [s]. *)
Definition locked_world (s : list env_event) (t : ww_acquire_ctx)
    (l : list ttm_validate_buffer) : world :=
  match immediate_scan (Some t) true (with_ticket (world0 [] s) (Some t)) l with
  | Some w => w
  | None => world0 [] s
  end.

(* ================================================================== *)
(** ** What a scan may change *)

(** The calls the scan of [ttm_eu_reserve_buffers] makes: lock attempts,
    releases and slot reservations, and the slow lock for a batch that has
    a ticket. *)
Definition scan_call (ticket : option ww_acquire_ctx) (c : call) : Prop :=
  match c with
  | c_reserve _ _ | c_unlock _ | c_reserve_shared _ _ _ => True
  | c_lock_slow _ _ => ticket <> None
  | _ => False
  end.

(** From [w] to [w'] no fence was attached or dropped and no room for
    shared fences was lost. *)
Definition same_fences (w w' : world) : Prop :=
  forall b,
    fence_excl (resv w' b) = fence_excl (resv w b) /\
    fence_shared (resv w' b) = fence_shared (resv w b) /\
    (shared_max (resv w b) <= shared_max (resv w' b))%nat.

(** From [w] to [w'] only calls of the scan were made; the LRU list, the
    acquire contexts and the fences are as they were. *)
Definition evolves (ticket : option ww_acquire_ctx) (w w' : world) : Prop :=
  lru w' = lru w /\
  acquire w' = acquire w /\
  same_fences w w' /\
  exists tr, trace w' = trace w ++ tr /\ Forall (scan_call ticket) tr.

(** The reservation object of the entry has room for the shared fences the
    entry asks for. *)
Definition has_room (w : world) (e : ttm_validate_buffer) : Prop :=
  (length (fence_shared (resv w (bo e))) + num_shared e
   <= shared_max (resv w (bo e)))%nat.

Definition slots_reserved (w : world) (l : list ttm_validate_buffer) : Prop :=
  forall e, In e l -> num_shared e <> 0%nat -> has_room w e.

(** How the duplicates list [d'] that is left comes from the one that was
    given: the entries [moved] were put in front of it. *)
Definition dups_grown (dups d' : option (list ttm_validate_buffer))
    (moved : list ttm_validate_buffer) : Prop :=
  match dups with
  | Some d => d' = Some (moved ++ d)
  | None => d' = None /\ moved = []
  end.

(** The call that opens the reservation of a batch that has a ticket. *)
Definition init_calls (ticket : option ww_acquire_ctx) : list call :=
  match ticket with
  | Some t => [c_ww_acquire_init t]
  | None => []
  end.

(** The phase in which a reservation that returned [r] leaves the context
    [t'], when the list was not empty. *)
Definition phase_after (ticket : option ww_acquire_ctx) (r : Z)
    (before : ctx_phase) (t' : ww_acquire_ctx) : ctx_phase :=
  match ticket with
  | Some t =>
      if Nat.eqb t' t then (if Z.eqb r 0 then CtxInit else CtxFini) else before
  | None => before
  end.

(** The parts of an outcome. *)
Definition result_world (res : option reserve_result) : world :=
  match res with Some (w, _, _, _) => w | None => world0 [] [] end.

Definition result_list (res : option reserve_result) : list ttm_validate_buffer :=
  match res with Some (_, l, _, _) => l | None => [] end.

Definition result_dups (res : option reserve_result)
    : option (list ttm_validate_buffer) :=
  match res with Some (_, _, d, _) => d | None => None end.

Definition result_code (res : option reserve_result) : Z :=
  match res with Some (_, _, _, r) => r | None => 0 end.

(** Two reservations to try the theorems on: one that meets contention
    and a duplicate and succeeds, one that a signal cancels. *)
Definition sample_world : world :=
  world0 [2; 5; 1]%nat [EvGrant; EvBusy; EvGrant].

Definition sample_run : option reserve_result :=
  ttm_eu_reserve_buffers sample_world (Some 7%nat)
    [vb 1 0; vb 2 1; vb 1 3] true (Some [vb 9 0]).

Definition cancelled_run : option reserve_result :=
  ttm_eu_reserve_buffers (world0 [] [EvGrant; EvBusy; EvSignal]) (Some 7%nat)
    [vb 1 0; vb 2 1] true (Some [vb 9 0]).

(* ================================================================== *)
(** ** The states a reservation goes through *)

(** A state of the scan of [ttm_eu_reserve_buffers]: the world, the entries
    before the cursor, the entries from the cursor on, and the duplicates
    list. *)
Definition scan_state : Type :=
  (world * list ttm_validate_buffer * list ttm_validate_buffer
   * option (list ttm_validate_buffer))%type.

(** One iteration of the loop (lines 93-150) with the cursor on [e], between
    the entries [prev] and [next]: the state in which the next iteration
    starts, or what the function returns. *)
Definition scan_step (ticket : option ww_acquire_ctx) (intr : bool) (w : world)
    (prev : list ttm_validate_buffer) (e : ttm_validate_buffer)
    (next : list ttm_validate_buffer) (dups : option (list ttm_validate_buffer))
    : scan_state + reserve_result :=
  let '(w1, r1) := __ttm_bo_reserve w (bo e) intr (is_null ticket) ticket in
  match Z.eqb r1 (- EALREADY), dups with
  | true, Some d => inl (w1, prev, next, Some (list_add e d))
  | _, _ =>
      let '(w2, r2) := reserve_slots w1 e r1 in
      if Z.eqb r2 0 then inl (w2, prev ++ [e], next, dups)
      else
        let w3 :=
          ttm_eu_backoff_reservation_reverse w2 (prev ++ e :: next) (length prev) in
        let '(w5, r5) := recover ticket intr w3 e r2 in
        if Z.eqb r5 0 then inl (w5, [e], prev ++ next, dups)
        else inr (teardown ticket w5, prev ++ e :: next, dups, report r5)
  end.

(** The loop run from a state. *)
Definition scan_from (ticket : option ww_acquire_ctx) (intr : bool) (fuel : nat)
    (s : scan_state) : option reserve_result :=
  let '(w, prev, rest, dups) := s in
  reserve_loop fuel ticket intr w (prev ++ rest) (length prev) dups.

(** The state in which the scan of a call on a non-empty list starts: the
    ticket is initialised and the cursor is on the first entry. *)
Definition scan_start (w : world) (ticket : option ww_acquire_ctx)
    (vlist : list ttm_validate_buffer) (dups : option (list ttm_validate_buffer))
    : scan_state :=
  (with_ticket w ticket, [], vlist, dups).

(** The states the scan passes through, from the state [s0] on. *)
Inductive scan_reaches (ticket : option ww_acquire_ctx) (intr : bool)
    (s0 : scan_state) : scan_state -> Prop :=
| reaches_start : scan_reaches ticket intr s0 s0
| reaches_next : forall w prev e next dups s',
    scan_reaches ticket intr s0 (w, prev, e :: next, dups) ->
    scan_step ticket intr w prev e next dups = inl s' ->
    scan_reaches ticket intr s0 s'.

Definition scan_inv (s : scan_state) : Prop :=
  let '(w, prev, _, _) := s in reserve_inv w prev.




(* ================================================================== *)
(** ** include/kcl/kcl_kernel.h *)

(** An unsigned integer of [bits] bits. *)
Definition wrap (bits : Z) (z : Z) : Z := z mod 2 ^ bits.

(** [ALIGN_DOWN(x, a)] on unsigned operands of [bits] bits.  The macro
    [__ALIGN_KERNEL], which it expands to, is not among the sources and is
    a parameter. *)
Definition ALIGN_DOWN (bits : Z) (__ALIGN_KERNEL : Z -> Z -> Z) (x a : Z) : Z :=
  __ALIGN_KERNEL (wrap bits (x - (a - 1))) a.

(** What is assumed of [__ALIGN_KERNEL(x, a)]: it is
    [((x) + (mask)) & ~(mask)] with [mask = (a) - 1], in the type of
    [x]. *)
Definition is_ALIGN_KERNEL (bits : Z) (f : Z -> Z -> Z) : Prop :=
  forall x a,
    f x a = Z.land (wrap bits (x + (a - 1))) (wrap bits (Z.lnot (a - 1))).

(** An instance of the assumption, to run the macro. *)
Definition align_kernel (bits : Z) (x a : Z) : Z :=
  Z.land (wrap bits (x + (a - 1))) (wrap bits (Z.lnot (a - 1))).

(* ================================================================== *)
(** * Theorems *)

(* ================================================================== *)
(** ** Elementary facts about the world *)

Lemma upd_same {A : Type} (f : nat -> A) k v : upd f k v k = v.
Proof. unfold upd. now rewrite Nat.eqb_refl. Qed.

Lemma upd_other {A : Type} (f : nat -> A) k v k' : k' <> k -> upd f k v k' = f k'.
Proof. unfold upd. intros H. apply Nat.eqb_neq in H. now rewrite H. Qed.

Lemma lock_of_set_lock w b o b' :
  lock_of (set_lock w b o) b' = if Nat.eqb b' b then o else lock_of w b'.
Proof.
  unfold lock_of, set_lock, set_resv, upd; simpl.
  destruct (Nat.eqb b' b); reflexivity.
Qed.

Lemma lock_of_unlock w b b' :
  lock_of (dma_resv_unlock w b) b' = if Nat.eqb b' b then None else lock_of w b'.
Proof. unfold dma_resv_unlock. apply lock_of_set_lock. Qed.

Lemma unlock_all_trace bs : forall w,
  trace (unlock_all w bs) = trace w ++ map c_unlock bs.
Proof.
  unfold unlock_all.
  induction bs as [|b bs IH]; intros w; simpl.
  - now rewrite app_nil_r.
  - rewrite IH. simpl. now rewrite <- app_assoc.
Qed.

Lemma unlock_all_lru bs : forall w, lru (unlock_all w bs) = lru w.
Proof. unfold unlock_all. induction bs as [|b bs IH]; intros w; simpl; [easy|]. now rewrite IH. Qed.

Lemma unlock_all_script bs : forall w, script (unlock_all w bs) = script w.
Proof. unfold unlock_all. induction bs as [|b bs IH]; intros w; simpl; [easy|]. now rewrite IH. Qed.

Lemma unlock_all_acquire bs : forall w, acquire (unlock_all w bs) = acquire w.
Proof. unfold unlock_all. induction bs as [|b bs IH]; intros w; simpl; [easy|]. now rewrite IH. Qed.

Lemma unlock_all_lock_in bs : forall w b,
  In b bs -> lock_of (unlock_all w bs) b = None.
Proof.
  induction bs as [|x bs IH] using rev_ind; intros w b Hin; [easy|].
  unfold unlock_all in *. rewrite fold_left_app. simpl.
  rewrite lock_of_unlock.
  destruct (Nat.eqb_spec b x) as [->|Hne]; [reflexivity|].
  apply IH. apply in_app_or in Hin. destruct Hin as [H|[H|[]]]; [easy|congruence].
Qed.

Lemma unlock_all_lock_out bs : forall w b,
  ~ In b bs -> lock_of (unlock_all w bs) b = lock_of w b.
Proof.
  unfold unlock_all.
  induction bs as [|x bs IH]; intros w b Hin; [easy|].
  simpl in *. rewrite IH by tauto.
  rewrite lock_of_unlock.
  destruct (Nat.eqb_spec b x) as [->|Hne]; [tauto|reflexivity].
Qed.

Lemma unlock_all_fences bs : forall w b,
  fence_excl (resv (unlock_all w bs) b) = fence_excl (resv w b) /\
  fence_shared (resv (unlock_all w bs) b) = fence_shared (resv w b) /\
  shared_max (resv (unlock_all w bs) b) = shared_max (resv w b).
Proof.
  unfold unlock_all.
  induction bs as [|x bs IH]; intros w b; [easy|].
  simpl.
  destruct (IH (dma_resv_unlock w x) b) as (-> & -> & ->).
  unfold dma_resv_unlock, set_lock, set_resv, upd; simpl.
  destruct (Nat.eqb_spec b x) as [->|Hne]; simpl; auto.
Qed.

(** The partial rollback releases the entries before the cursor, last to
    first. *)
Lemma backoff_reverse_unlock_all prev : forall w rest,
  ttm_eu_backoff_reservation_reverse w (prev ++ rest) (length prev)
  = unlock_all w (map bo (rev prev)).
Proof.
  induction prev as [|x prev IH] using rev_ind; intros w rest; [reflexivity|].
  rewrite length_app, Nat.add_comm. simpl.
  rewrite <- app_assoc. simpl.
  rewrite nth_error_app2 by lia. rewrite Nat.sub_diag. simpl.
  rewrite IH. rewrite rev_app_distr. reflexivity.
Qed.

(* ================================================================== *)
(** ** The release sweeps *)

Lemma filter_twice {A : Type} (f g : A -> bool) l :
  filter f (filter g l) = filter (fun x => g x && f x) l.
Proof.
  induction l as [|a l IH]; simpl; [reflexivity|].
  destruct (g a); simpl; [destruct (f a)|]; now rewrite IH.
Qed.

Lemma filter_all {A : Type} (f : A -> bool) l :
  (forall x, In x l -> f x = true) -> filter f l = l.
Proof.
  induction l as [|a l IH]; simpl; intros H; [reflexivity|].
  rewrite (H a) by auto. f_equal. apply IH. auto.
Qed.

Lemma existsb_eqb_In b bs : existsb (Nat.eqb b) bs = true <-> In b bs.
Proof.
  rewrite existsb_exists. split.
  - intros (x & Hx & E). apply Nat.eqb_eq in E. now subst.
  - intros H. exists b. split; [easy|apply Nat.eqb_refl].
Qed.

Lemma lru_without_snoc l bs b :
  filter (fun x => negb (Nat.eqb x b)) (lru_without l bs) = lru_without l (bs ++ [b]).
Proof.
  unfold lru_without. rewrite filter_twice. apply filter_ext. intros x.
  rewrite existsb_app. simpl. rewrite orb_false_r, negb_orb. reflexivity.
Qed.

Section Sweep.
Variable step : world -> ttm_validate_buffer -> world.
Variable calls : ttm_validate_buffer -> list call.
Hypothesis step_lru : forall w e, lru (step w e) = lru_move (lru w) (bo e).
Hypothesis step_trace : forall w e, trace (step w e) = trace w ++ calls e.
Hypothesis step_lock : forall w e b,
  lock_of (step w e) b = if Nat.eqb b (bo e) then None else lock_of w b.
Hypothesis step_acquire : forall w e, acquire (step w e) = acquire w.

Lemma sweep_lru l : forall w,
  NoDup (map bo l) ->
  lru (fold_left step l w) = lru_without (lru w) (map bo l) ++ map bo l.
Proof.
  induction l as [|x l IH] using rev_ind; intros w Hnd.
  - simpl. rewrite app_nil_r. unfold lru_without. simpl.
    symmetry. now apply filter_all.
  - rewrite fold_left_app. simpl. rewrite step_lru.
    rewrite map_app in Hnd. simpl in Hnd.
    assert (Hx : ~ In (bo x) (map bo l)).
    { apply NoDup_remove_2 in Hnd. now rewrite app_nil_r in Hnd. }
    apply NoDup_remove_1 in Hnd. rewrite app_nil_r in Hnd.
    rewrite IH by assumption. unfold lru_move.
    rewrite filter_app, lru_without_snoc, map_app. simpl.
    rewrite <- app_assoc. do 2 f_equal.
    apply filter_all. intros y Hy.
    destruct (Nat.eqb_spec y (bo x)); [subst; tauto|reflexivity].
Qed.

Lemma sweep_trace l : forall w,
  trace (fold_left step l w) = trace w ++ flat_map calls l.
Proof.
  induction l as [|x l IH]; intros w; simpl.
  - now rewrite app_nil_r.
  - rewrite IH, step_trace. now rewrite <- app_assoc.
Qed.

Lemma sweep_lock l : forall w b,
  lock_of (fold_left step l w) b
  = if existsb (Nat.eqb b) (map bo l) then None else lock_of w b.
Proof.
  induction l as [|x l IH] using rev_ind; intros w b; [reflexivity|].
  rewrite fold_left_app. simpl. rewrite step_lock, IH.
  rewrite map_app, existsb_app. simpl. rewrite orb_false_r.
  destruct (Nat.eqb b (bo x)); [now rewrite orb_true_r|now rewrite orb_false_r].
Qed.

Lemma sweep_acquire l : forall w, acquire (fold_left step l w) = acquire w.
Proof.
  induction l as [|x l IH]; intros w; simpl; [reflexivity|].
  now rewrite IH, step_acquire.
Qed.
End Sweep.

Lemma backoff_entry_lru w e : lru (backoff_entry w e) = lru_move (lru w) (bo e).
Proof. reflexivity. Qed.

Lemma backoff_entry_trace w e : trace (backoff_entry w e) = trace w ++ backoff_calls e.
Proof. unfold backoff_entry, backoff_calls. simpl. now rewrite <- app_assoc. Qed.

Lemma backoff_entry_lock w e b :
  lock_of (backoff_entry w e) b = if Nat.eqb b (bo e) then None else lock_of w b.
Proof. unfold backoff_entry. now rewrite lock_of_unlock. Qed.

Lemma fence_entry_lru f w e : lru (fence_entry f w e) = lru_move (lru w) (bo e).
Proof. unfold fence_entry. destruct (Nat.eqb (num_shared e) 0); reflexivity. Qed.

Lemma fence_entry_trace f w e : trace (fence_entry f w e) = trace w ++ fence_calls f e.
Proof.
  unfold fence_entry, fence_calls.
  destruct (Nat.eqb (num_shared e) 0); simpl; now rewrite <- !app_assoc.
Qed.

Lemma lock_of_set_resv_keep w b r b' :
  lock r = lock (resv w b) -> lock_of (set_resv w b r) b' = lock_of w b'.
Proof.
  intros H. unfold lock_of, set_resv, upd; simpl.
  destruct (Nat.eqb_spec b' b) as [->|]; auto.
Qed.

Lemma fence_entry_lock f w e b :
  lock_of (fence_entry f w e) b = if Nat.eqb b (bo e) then None else lock_of w b.
Proof.
  unfold fence_entry. rewrite lock_of_unlock.
  destruct (Nat.eqb b (bo e)); [reflexivity|].
  destruct (Nat.eqb (num_shared e) 0); simpl;
    unfold ttm_bo_move_to_lru_tail, dma_resv_add_shared_fence, dma_resv_add_excl_fence;
    apply (lock_of_set_resv_keep w); reflexivity.
Qed.

Lemma fence_entry_acquire f w e : acquire (fence_entry f w e) = acquire w.
Proof. unfold fence_entry. destruct (Nat.eqb (num_shared e) 0); reflexivity. Qed.

Lemma fence_entry_resv_other f w e b :
  b <> bo e -> resv (fence_entry f w e) b = resv w b.
Proof.
  intros Hne. apply Nat.eqb_neq in Hne.
  unfold fence_entry, dma_resv_unlock, ttm_bo_move_to_lru_tail,
    dma_resv_add_shared_fence, dma_resv_add_excl_fence, set_lock, set_resv, upd.
  destruct (Nat.eqb (num_shared e) 0); simpl; now rewrite Hne.
Qed.

Lemma fence_entry_resv_at f w e :
  fence_excl (resv (fence_entry f w e) (bo e))
  = (if Nat.eqb (num_shared e) 0 then Some f else fence_excl (resv w (bo e))) /\
  fence_shared (resv (fence_entry f w e) (bo e))
  = (if Nat.eqb (num_shared e) 0 then [] else fence_shared (resv w (bo e)) ++ [f]).
Proof.
  unfold fence_entry, dma_resv_unlock, ttm_bo_move_to_lru_tail,
    dma_resv_add_shared_fence, dma_resv_add_excl_fence, set_lock, set_resv, upd.
  destruct (Nat.eqb (num_shared e) 0); simpl; rewrite Nat.eqb_refl; simpl;
    rewrite ?Nat.eqb_refl; auto.
Qed.

Lemma fence_sweep_resv_other f l : forall w b,
  ~ In b (map bo l) -> resv (fold_left (fence_entry f) l w) b = resv w b.
Proof.
  induction l as [|x l IH]; intros w b Hin; [reflexivity|].
  simpl in *. rewrite IH by tauto. apply fence_entry_resv_other. intros E. auto.
Qed.

Lemma fence_sweep_excl f l : forall w b,
  fence_excl (resv (fold_left (fence_entry f) l w) b)
  = if existsb (fun e => Nat.eqb b (bo e) && Nat.eqb (num_shared e) 0) l
    then Some f else fence_excl (resv w b).
Proof.
  induction l as [|x l IH]; intros w b; [reflexivity|].
  simpl. rewrite IH.
  destruct (existsb _ l); [now rewrite orb_true_r|]. rewrite orb_false_r.
  destruct (Nat.eqb_spec b (bo x)) as [E|Hne]; cbn [andb].
  - subst b. now destruct (fence_entry_resv_at f w x) as [-> _].
  - now rewrite fence_entry_resv_other.
Qed.

Lemma lru_without_spec l bs b : In b (lru_without l bs) <-> In b l /\ ~ In b bs.
Proof.
  unfold lru_without. rewrite filter_In, negb_true_iff.
  rewrite <- (existsb_eqb_In b bs).
  destruct (existsb (Nat.eqb b) bs); intuition congruence.
Qed.

Lemma backoff_nonempty w ticket vlist :
  vlist <> [] ->
  ttm_eu_backoff_reservation w ticket vlist
  = let w := spin_unlock (fold_left backoff_entry vlist (spin_lock w)) in
    match ticket with Some t => ww_acquire_fini w t | None => w end.
Proof. destruct vlist; [congruence|reflexivity]. Qed.

Lemma fence_nonempty w ticket vlist fence :
  vlist <> [] ->
  ttm_eu_fence_buffer_objects w ticket vlist fence
  = let w := spin_unlock (fold_left (fence_entry fence) vlist (spin_lock w)) in
    match ticket with Some t => ww_acquire_fini w t | None => w end.
Proof. destruct vlist; [congruence|reflexivity]. Qed.

Lemma backoff_trace w ticket vlist :
  vlist <> [] ->
  trace (ttm_eu_backoff_reservation w ticket vlist)
  = trace w ++ c_spin_lock :: flat_map backoff_calls vlist
      ++ c_spin_unlock :: fini_calls ticket.
Proof.
  intros H. rewrite backoff_nonempty by assumption. cbv zeta.
  assert (E : trace (spin_unlock (fold_left backoff_entry vlist (spin_lock w)))
              = trace w ++ c_spin_lock :: flat_map backoff_calls vlist ++ [c_spin_unlock]).
  { unfold spin_unlock. cbn [emit trace].
    rewrite (sweep_trace backoff_entry backoff_calls backoff_entry_trace).
    unfold spin_lock. cbn [emit trace]. now rewrite <- !app_assoc. }
  destruct ticket as [t|]; cbn [fini_calls].
  - unfold ww_acquire_fini. cbn [emit trace set_phase]. rewrite E.
    rewrite <- !app_assoc. cbn [app]. now rewrite <- !app_assoc.
  - exact E.
Qed.

Lemma fence_trace w ticket vlist fence :
  vlist <> [] ->
  trace (ttm_eu_fence_buffer_objects w ticket vlist fence)
  = trace w ++ c_spin_lock :: flat_map (fence_calls fence) vlist
      ++ c_spin_unlock :: fini_calls ticket.
Proof.
  intros H. rewrite fence_nonempty by assumption. cbv zeta.
  assert (E : trace (spin_unlock (fold_left (fence_entry fence) vlist (spin_lock w)))
              = trace w ++ c_spin_lock :: flat_map (fence_calls fence) vlist ++ [c_spin_unlock]).
  { unfold spin_unlock. cbn [emit trace].
    rewrite (sweep_trace (fence_entry fence) (fence_calls fence) (fence_entry_trace fence)).
    unfold spin_lock. cbn [emit trace]. now rewrite <- !app_assoc. }
  destruct ticket as [t|]; cbn [fini_calls].
  - unfold ww_acquire_fini. cbn [emit trace set_phase]. rewrite E.
    rewrite <- !app_assoc. cbn [app]. now rewrite <- !app_assoc.
  - exact E.
Qed.

Lemma backoff_lru w ticket vlist :
  NoDup (map bo vlist) ->
  lru (ttm_eu_backoff_reservation w ticket vlist)
  = lru_without (lru w) (map bo vlist) ++ map bo vlist.
Proof.
  intros Hnd. destruct vlist as [|e l].
  - simpl. rewrite app_nil_r. unfold lru_without. symmetry. now apply filter_all.
  - rewrite backoff_nonempty by discriminate. cbv zeta.
    pose proof (sweep_lru backoff_entry backoff_entry_lru (e :: l) (spin_lock w) Hnd) as E.
    change (lru (spin_lock w)) with (lru w) in E. rewrite <- E.
    now destruct ticket.
Qed.

Lemma fence_lru w ticket vlist fence :
  NoDup (map bo vlist) ->
  lru (ttm_eu_fence_buffer_objects w ticket vlist fence)
  = lru_without (lru w) (map bo vlist) ++ map bo vlist.
Proof.
  intros Hnd. destruct vlist as [|e l].
  - simpl. rewrite app_nil_r. unfold lru_without. symmetry. now apply filter_all.
  - rewrite fence_nonempty by discriminate. cbv zeta.
    pose proof (sweep_lru (fence_entry fence) (fence_entry_lru fence) (e :: l)
                  (spin_lock w) Hnd) as E.
    change (lru (spin_lock w)) with (lru w) in E. rewrite <- E.
    now destruct ticket.
Qed.

(** C3. After [ttm_eu_backoff_reservation] or [ttm_eu_fence_buffer_objects]
    on a non-empty list of distinct resources, the LRU list is the old one
    without these resources, followed by them in the order of the validate
    list; and the sweep, inside the LRU critical section, moves each
    resource to the tail before it releases its lock. *)
Theorem lru_tail_after_release :
  forall w ticket vlist fence,
    vlist <> [] ->
    NoDup (map bo vlist) ->
    let w1 := ttm_eu_backoff_reservation w ticket vlist in
    let w2 := ttm_eu_fence_buffer_objects w ticket vlist fence in
    (lru w1 = lru_without (lru w) (map bo vlist) ++ map bo vlist /\
     trace w1 = trace w ++ c_spin_lock :: flat_map backoff_calls vlist
                  ++ c_spin_unlock :: fini_calls ticket) /\
    (lru w2 = lru_without (lru w) (map bo vlist) ++ map bo vlist /\
     trace w2 = trace w ++ c_spin_lock :: flat_map (fence_calls fence) vlist
                  ++ c_spin_unlock :: fini_calls ticket).
Proof.
  intros w ticket vlist fence Hne Hnd. cbv zeta.
  repeat split.
  - now apply backoff_lru.
  - now apply backoff_trace.
  - now apply fence_lru.
  - now apply fence_trace.
Qed.

Lemma lru_tail_after_release_witness :
  let w := world0 [2; 5; 1]%nat [] in
  let vlist := [vb 1 0; vb 2 1] in
  (lru (ttm_eu_backoff_reservation w (Some 7%nat) vlist)
   = lru_without (lru w) (map bo vlist) ++ map bo vlist /\
   trace (ttm_eu_backoff_reservation w (Some 7%nat) vlist)
   = trace w ++ c_spin_lock :: flat_map backoff_calls vlist
       ++ c_spin_unlock :: fini_calls (Some 7%nat)) /\
  (lru (ttm_eu_fence_buffer_objects w (Some 7%nat) vlist 9%nat)
   = lru_without (lru w) (map bo vlist) ++ map bo vlist /\
   trace (ttm_eu_fence_buffer_objects w (Some 7%nat) vlist 9%nat)
   = trace w ++ c_spin_lock :: flat_map (fence_calls 9%nat) vlist
       ++ c_spin_unlock :: fini_calls (Some 7%nat)).
Proof.
  apply (lru_tail_after_release (world0 [2; 5; 1]%nat []) (Some 7%nat)
           [vb 1 0; vb 2 1] 9%nat).
  - discriminate.
  - simpl. repeat constructor; simpl; intuition discriminate.
Defined.

(** C5. The partial rollback, called with the cursor on the current entry,
    releases the entries before the cursor and only those, from the one
    next to the cursor back to the first; the lock of any other resource,
    and the LRU list, are left as they were. *)
Theorem partial_rollback_releases_prefix :
  forall w prev entry next,
    let w' := ttm_eu_backoff_reservation_reverse w (prev ++ entry :: next)
                (length prev) in
    trace w' = trace w ++ map c_unlock (map bo (rev prev)) /\
    lru w' = lru w /\
    (forall b, In b (map bo prev) -> lock_of w' b = None) /\
    (forall b, ~ In b (map bo prev) -> lock_of w' b = lock_of w b).
Proof.
  intros w prev entry next. cbv zeta.
  rewrite backoff_reverse_unlock_all.
  split; [apply unlock_all_trace|].
  split; [apply unlock_all_lru|].
  split; intros b Hb.
  - apply unlock_all_lock_in. rewrite map_rev, <- in_rev. exact Hb.
  - apply unlock_all_lock_out. rewrite map_rev, <- in_rev. exact Hb.
Qed.

Lemma partial_rollback_releases_prefix_witness :
  let w := mk_world (fun _ => mk_resv (Some Self) None [] 0) [3; 1; 2]%nat
             (fun _ => CtxInit) [] [] in
  let w' := ttm_eu_backoff_reservation_reverse w ([vb 1 0; vb 2 0] ++ vb 3 0 :: [vb 4 0]) 2 in
  trace w' = [c_unlock 2%nat; c_unlock 1%nat] /\
  lru w' = [3; 1; 2]%nat /\
  (forall b, In b [1; 2]%nat -> lock_of w' b = None) /\
  (forall b, ~ In b [1; 2]%nat -> lock_of w' b = Some Self).
Proof.
  exact (partial_rollback_releases_prefix
           (mk_world (fun _ => mk_resv (Some Self) None [] 0) [3; 1; 2]%nat
              (fun _ => CtxInit) [] [])
           [vb 1 0; vb 2 0] (vb 3 0) [vb 4 0]).
Defined.

(** C8 (as amended). On a non-empty list [ttm_eu_backoff_reservation] and
    [ttm_eu_fence_buffer_objects] end with [ww_acquire_fini] on the ticket
    they were given, which leaves it finalised; on an empty list both
    return at once and leave the world, ticket included, as it was. *)
Theorem release_finalises_ticket_last :
  forall w t vlist fence,
    (vlist <> [] ->
     let w1 := ttm_eu_backoff_reservation w (Some t) vlist in
     let w2 := ttm_eu_fence_buffer_objects w (Some t) vlist fence in
     (exists tr, trace w1 = tr ++ [c_ww_acquire_fini t]) /\ acquire w1 t = CtxFini /\
     (exists tr, trace w2 = tr ++ [c_ww_acquire_fini t]) /\ acquire w2 t = CtxFini) /\
    (forall ticket,
       ttm_eu_backoff_reservation w ticket [] = w /\
       ttm_eu_fence_buffer_objects w ticket [] fence = w).
Proof.
  intros w t vlist fence. split; [|intros ticket; split; reflexivity].
  intros Hne. cbv zeta.
  rewrite backoff_nonempty, fence_nonempty by assumption. cbv zeta.
  repeat split.
  - eexists. reflexivity.
  - unfold ww_acquire_fini. cbn. apply upd_same.
  - eexists. reflexivity.
  - unfold ww_acquire_fini. cbn. apply upd_same.
Qed.

Lemma release_finalises_ticket_last_witness :
  let w := world0 [] [] in
  let w1 := ttm_eu_backoff_reservation w (Some 7%nat) [vb 1 0] in
  let w2 := ttm_eu_fence_buffer_objects w (Some 7%nat) [vb 1 0] 9%nat in
  (exists tr, trace w1 = tr ++ [c_ww_acquire_fini 7%nat]) /\ acquire w1 7%nat = CtxFini /\
  (exists tr, trace w2 = tr ++ [c_ww_acquire_fini 7%nat]) /\ acquire w2 7%nat = CtxFini.
Proof.
  apply (release_finalises_ticket_last (world0 [] []) 7%nat [vb 1 0] 9%nat).
  discriminate.
Defined.

(** C8, as first stated, fails on the empty list: the ticket that is
    supplied is not finalised, and no call at all is made. *)
Lemma empty_list_leaves_ticket_alone :
  let w := set_phase (world0 [] []) 7%nat CtxInit in
  acquire (ttm_eu_backoff_reservation w (Some 7%nat) []) 7%nat <> CtxFini /\
  trace (ttm_eu_backoff_reservation w (Some 7%nat) []) = [] /\
  acquire (ttm_eu_fence_buffer_objects w (Some 7%nat) [] 9%nat) 7%nat <> CtxFini /\
  trace (ttm_eu_fence_buffer_objects w (Some 7%nat) [] 9%nat) = [].
Proof. cbn. repeat split; discriminate. Qed.

(** C4. For an entry of the validate list whose shared count is 0,
    [ttm_eu_fence_buffer_objects] leaves the supplied fence as the exclusive
    fence of its resource.  For an entry whose shared count is not 0, in a
    list of distinct resources, the supplied fence is added after the
    shared fences of its resource and the exclusive fence is as it was. *)
Theorem fence_marks_entry :
  forall w ticket vlist fence entry,
    In entry vlist ->
    let w' := ttm_eu_fence_buffer_objects w ticket vlist fence in
    (num_shared entry = 0%nat ->
     fence_excl (resv w' (bo entry)) = Some fence) /\
    (num_shared entry <> 0%nat ->
     NoDup (map bo vlist) ->
     fence_shared (resv w' (bo entry)) = fence_shared (resv w (bo entry)) ++ [fence] /\
     fence_excl (resv w' (bo entry)) = fence_excl (resv w (bo entry))).
Proof.
  intros w ticket vlist fence entry Hin. cbv zeta.
  assert (Hne : vlist <> []) by (intros ->; contradiction).
  assert (E : forall b, resv (ttm_eu_fence_buffer_objects w ticket vlist fence) b
              = resv (fold_left (fence_entry fence) vlist (spin_lock w)) b).
  { intros b. rewrite fence_nonempty by assumption. now destruct ticket. }
  rewrite E. split.
  - intros H0. rewrite fence_sweep_excl.
    replace (existsb _ vlist) with true; [reflexivity|].
    symmetry. apply existsb_exists. exists entry. split; [assumption|].
    now rewrite Nat.eqb_refl, H0.
  - intros Hn Hnd.
    apply in_split in Hin. destruct Hin as (l1 & l2 & ->).
    rewrite map_app in Hnd. simpl in Hnd.
    pose proof (NoDup_remove_2 _ _ _ Hnd) as Hout.
    rewrite fold_left_app. simpl.
    rewrite fence_sweep_resv_other by (intros H; apply Hout, in_or_app; now right).
    destruct (fence_entry_resv_at fence (fold_left (fence_entry fence) l1 (spin_lock w)) entry)
      as [-> ->].
    apply Nat.eqb_neq in Hn. rewrite Hn.
    rewrite fence_sweep_resv_other by (intros H; apply Hout, in_or_app; now left).
    split; reflexivity.
Qed.

Lemma fence_marks_entry_witness :
  let w := world0 [] [] in
  let vlist := [vb 1 0; vb 2 1] in
  let w' := ttm_eu_fence_buffer_objects w (Some 7%nat) vlist 9%nat in
  fence_excl (resv w' 1%nat) = Some 9%nat /\
  fence_shared (resv w' 2%nat) = fence_shared (resv w 2%nat) ++ [9%nat] /\
  fence_excl (resv w' 2%nat) = fence_excl (resv w 2%nat).
Proof.
  split.
  - apply (fence_marks_entry (world0 [] []) (Some 7%nat) [vb 1 0; vb 2 1] 9%nat (vb 1 0)).
    + simpl; auto.
    + reflexivity.
  - apply (fence_marks_entry (world0 [] []) (Some 7%nat) [vb 1 0; vb 2 1] 9%nat (vb 2 1)).
    + simpl; auto.
    + discriminate.
    + simpl. repeat constructor; simpl; intuition discriminate.
Defined.

(* ================================================================== *)
(** ** One iteration of the reservation loop *)

Lemma list_del_middle {A : Type} (prev : list A) e next :
  list_del (length prev) (prev ++ e :: next) = prev ++ next.
Proof.
  unfold list_del.
  rewrite firstn_app, Nat.sub_diag, firstn_all. cbn [firstn]. rewrite app_nil_r.
  f_equal.
  rewrite skipn_app, (skipn_all2 prev) by lia.
  replace (S (length prev) - length prev)%nat with 1%nat by lia. reflexivity.
Qed.

Lemma nth_error_middle {A : Type} (prev : list A) e next :
  nth_error (prev ++ e :: next) (length prev) = Some e.
Proof. rewrite nth_error_app2 by lia. now rewrite Nat.sub_diag. Qed.

(** The iteration seen from the entries before the cursor, the current
    entry and the entries after it. *)
Lemma reserve_loop_step fuel ticket intr w prev e next dups :
  reserve_loop (S fuel) ticket intr w (prev ++ e :: next) (length prev) dups
  = let '(w1, r1) := __ttm_bo_reserve w (bo e) intr (is_null ticket) ticket in
    match Z.eqb r1 (- EALREADY), dups with
    | true, Some d =>
        reserve_loop fuel ticket intr w1 (prev ++ next) (length prev) (Some (e :: d))
    | _, _ =>
        let '(w2, r2) := reserve_slots w1 e r1 in
        if Z.eqb r2 0 then
          reserve_loop fuel ticket intr w2 (prev ++ e :: next) (S (length prev)) dups
        else
          let '(w5, r5) :=
            recover ticket intr (unlock_all w2 (map bo (rev prev))) e r2 in
          if Z.eqb r5 0 then
            reserve_loop fuel ticket intr w5 (e :: prev ++ next) 1 dups
          else Some (teardown ticket w5, prev ++ e :: next, dups, report r5)
    end.
Proof.
  cbn [reserve_loop]. rewrite nth_error_middle.
  destruct (__ttm_bo_reserve w (bo e) intr (is_null ticket) ticket) as [w1 r1].
  cbv zeta. rewrite !list_del_middle.
  assert (Hrest :
    (let '(w0, ret, locked) :=
       if Z.eqb r1 0 then
         if Nat.eqb (num_shared e) 0 then (w1, r1, true)
         else let '(w0, ret) := dma_resv_reserve_shared w1 (bo e) (num_shared e) in
              (w0, ret, Z.eqb ret 0)
       else (w1, r1, false) in
     if locked then
       reserve_loop fuel ticket intr w0 (prev ++ e :: next)
         (list_next_entry (Some (length prev))) dups
     else
       let w3 := ttm_eu_backoff_reservation_reverse w0 (prev ++ e :: next) (length prev) in
       let '(w4, ret0) :=
         if Z.eqb ret (- EDEADLK) then
           if intr then dma_resv_lock_slow_interruptible w3 (bo e) ticket
           else (dma_resv_lock_slow w3 (bo e) ticket, 0)
         else (w3, ret) in
       let '(w5, ret1) :=
         if Z.eqb ret0 0 && negb (Nat.eqb (num_shared e) 0)
         then dma_resv_reserve_shared w4 (bo e) (num_shared e)
         else (w4, ret0) in
       if negb (Z.eqb ret1 0) then
         Some (match ticket with
               | Some t => ww_acquire_fini (ww_acquire_done w5 t) t
               | None => w5
               end, prev ++ e :: next, dups,
               if Z.eqb ret1 (- EINTR) then - ERESTARTSYS else ret1)
       else
         reserve_loop fuel ticket intr w5 (list_add e (prev ++ next))
           (list_next_entry (Some O)) dups)
    = (let '(w2, r2) := reserve_slots w1 e r1 in
       if Z.eqb r2 0 then
         reserve_loop fuel ticket intr w2 (prev ++ e :: next) (S (length prev)) dups
       else
         let '(w5, r5) :=
           recover ticket intr (unlock_all w2 (map bo (rev prev))) e r2 in
         if Z.eqb r5 0 then
           reserve_loop fuel ticket intr w5 (e :: prev ++ next) 1 dups
         else Some (teardown ticket w5, prev ++ e :: next, dups, report r5))).
  { unfold reserve_slots, recover, teardown, report, list_add.
    cbn [list_next_entry].
    destruct (Z.eqb_spec r1 0) as [->|N0]; [|apply Z.eqb_neq in N0; rewrite ?N0].
    all: repeat first
      [ reflexivity
      | rewrite backoff_reverse_unlock_all
      | progress (cbv beta iota zeta; cbn [andb negb Z.eqb])
      | match goal with
        | |- context [Z.eqb ?a ?b] => destruct (Z.eqb a b) eqn:?
        | |- context [Nat.eqb ?a ?b] => destruct (Nat.eqb a b) eqn:?
        | |- context [if ?b then _ else _] => is_var b; destruct b
        end
      | match goal with
        | |- context [dma_resv_reserve_shared ?a ?b ?c] =>
            destruct (dma_resv_reserve_shared a b c)
        | |- context [dma_resv_lock_slow_interruptible ?a ?b ?c] =>
            destruct (dma_resv_lock_slow_interruptible a b c)
        end ]. }
  destruct (Z.eqb r1 (- EALREADY)); [destruct dups as [d|]|]; try exact Hrest.
  destruct prev; reflexivity.
Qed.

(* ================================================================== *)
(** ** What the collaborators do to the locks of the batch *)

Lemma ttm_bo_reserve_cases w b intr ticket w1 r :
  __ttm_bo_reserve w b intr (is_null ticket) ticket = (w1, r) ->
  trace w1 = trace w ++ [c_reserve b r] /\
  lru w1 = lru w /\
  acquire w1 = acquire w /\
  (length (script w1) <= length (script w))%nat /\
  ( (r = 0 /\ lock_of w b <> Some Self /\
     forall b', lock_of w1 b' = if Nat.eqb b' b then Some Self else lock_of w b')
    \/ (r = - EALREADY /\ ticket <> None /\ lock_of w b = Some Self /\
        forall b', lock_of w1 b' = lock_of w b')
    \/ (((r = - EDEADLK /\ (length (script w1) < length (script w))%nat)
         \/ r = - EBUSY \/ r = - ERESTARTSYS) /\
        forall b', lock_of w1 b' = Some Self <-> lock_of w b' = Some Self) ).
Proof.
  intros H. unfold __ttm_bo_reserve, next_event in H.
  destruct w as [rv l a s t].
  destruct ticket as [t0|]; cbn [is_null] in H.
  all: destruct (lock_of _ b) as [[|]|] eqn:Hl;
    try (destruct s as [|[] s]); try destruct intr;
    inversion H; subst; clear H; lock_facts;
    try (first [ left; solve [lock_facts]
               | right; left; solve [lock_facts]
               | right; right; solve [lock_facts] ]).
Qed.

Lemma reserve_shared_cases w b n w1 r :
  dma_resv_reserve_shared w b n = (w1, r) ->
  trace w1 = trace w ++ [c_reserve_shared b n r] /\
  lru w1 = lru w /\
  acquire w1 = acquire w /\
  (length (script w1) <= length (script w))%nat /\
  (forall b', lock_of w1 b' = lock_of w b') /\
  ((r = 0 /\
    (length (fence_shared (resv w1 b)) + n <= shared_max (resv w1 b))%nat)
   \/ r = - ENOMEM).
Proof.
  intros H. unfold dma_resv_reserve_shared, next_event in H.
  destruct w as [rv l a s t].
  destruct s as [|[] s]; inversion H; subst; clear H; lock_facts;
    try (left; split; [reflexivity|]; rewrite Nat.eqb_refl; simpl; lia);
    try (right; reflexivity).
Qed.

Lemma lock_slow_interruptible_cases w b ticket w1 r :
  dma_resv_lock_slow_interruptible w b ticket = (w1, r) ->
  trace w1 = trace w ++ [c_lock_slow b r] /\
  lru w1 = lru w /\
  acquire w1 = acquire w /\
  (length (script w1) <= length (script w))%nat /\
  ((r = 0 /\
    forall b', lock_of w1 b' = if Nat.eqb b' b then Some Self else lock_of w b')
   \/ (r = - EINTR /\
       forall b', lock_of w1 b' = if Nat.eqb b' b then Some Other else lock_of w b')).
Proof.
  intros H. unfold dma_resv_lock_slow_interruptible, next_event in H.
  destruct w as [rv l a s t].
  destruct s as [|[] s]; inversion H; subst; clear H; lock_facts;
    first [ left; solve [lock_facts] | right; solve [lock_facts] ].
Qed.

Lemma lock_slow_facts w b ticket :
  trace (dma_resv_lock_slow w b ticket) = trace w ++ [c_lock_slow b 0] /\
  lru (dma_resv_lock_slow w b ticket) = lru w /\
  acquire (dma_resv_lock_slow w b ticket) = acquire w /\
  (length (script (dma_resv_lock_slow w b ticket)) <= length (script w))%nat /\
  forall b', lock_of (dma_resv_lock_slow w b ticket) b'
             = if Nat.eqb b' b then Some Self else lock_of w b'.
Proof.
  unfold dma_resv_lock_slow, next_event.
  destruct w as [rv l a s t].
  destruct s as [|ev s]; lock_facts.
Qed.

Lemma teardown_facts ticket w :
  trace (teardown ticket w) = trace w ++ teardown_calls ticket /\
  lru (teardown ticket w) = lru w /\
  (forall b, lock_of (teardown ticket w) b = lock_of w b) /\
  (forall t, ticket = Some t -> acquire (teardown ticket w) t = CtxFini).
Proof.
  destruct ticket as [t0|]; simpl.
  - repeat split.
    + now rewrite <- app_assoc.
    + intros t E. inversion E; subst. apply upd_same.
  - rewrite app_nil_r. repeat split. intros t E. discriminate.
Qed.

Lemma reserve_slots_cases w1 e r1 w2 r2 :
  reserve_slots w1 e r1 = (w2, r2) ->
  lru w2 = lru w1 /\
  acquire w2 = acquire w1 /\
  (length (script w2) <= length (script w1))%nat /\
  (forall b', lock_of w2 b' = lock_of w1 b') /\
  ((r1 <> 0 /\ r2 = r1 /\ w2 = w1)
   \/ (r1 = 0 /\ r2 = 0)
   \/ (r1 = 0 /\ r2 = - ENOMEM /\ num_shared e <> 0%nat)).
Proof.
  intros H. unfold reserve_slots in H.
  destruct (Z.eqb_spec r1 0) as [E|N].
  - destruct (Nat.eqb_spec (num_shared e) 0) as [E0|N0].
    + inversion H; subst. repeat split; auto.
    + apply reserve_shared_cases in H.
      destruct H as (_ & Hl & Ha & Hs & Hk & [[-> _]| ->]); repeat split; auto.
  - inversion H; subst. repeat split; auto.
Qed.

Lemma recover_cases ticket intr w e r w5 r5 :
  recover ticket intr w e r = (w5, r5) ->
  r <> 0 ->
  lru w5 = lru w /\
  acquire w5 = acquire w /\
  (length (script w5) <= length (script w))%nat /\
  ((r = - EDEADLK /\ r5 = 0 /\
    forall b', lock_of w5 b' = if Nat.eqb b' (bo e) then Some Self else lock_of w b')
   \/ (r = - EDEADLK /\ r5 = - ENOMEM /\ num_shared e <> 0%nat /\
       forall b', lock_of w5 b' = if Nat.eqb b' (bo e) then Some Self else lock_of w b')
   \/ (r = - EDEADLK /\ r5 = - EINTR /\ intr = true /\
       forall b', lock_of w5 b' = if Nat.eqb b' (bo e) then Some Other else lock_of w b')
   \/ (r <> - EDEADLK /\ r5 = r /\ w5 = w)).
Proof.
  intros H Hr. unfold recover in H.
  destruct (Z.eqb_spec r (- EDEADLK)) as [E|N].
  - assert (Hslow : exists w4 r4,
              (if intr then dma_resv_lock_slow_interruptible w (bo e) ticket
               else (dma_resv_lock_slow w (bo e) ticket, 0)) = (w4, r4) /\
              lru w4 = lru w /\ acquire w4 = acquire w /\
              (length (script w4) <= length (script w))%nat /\
              ((r4 = 0 /\ forall b', lock_of w4 b'
                  = if Nat.eqb b' (bo e) then Some Self else lock_of w b')
               \/ (r4 = - EINTR /\ intr = true /\ forall b', lock_of w4 b'
                  = if Nat.eqb b' (bo e) then Some Other else lock_of w b'))).
    { destruct intr.
      - destruct (dma_resv_lock_slow_interruptible w (bo e) ticket) as [w4 r4] eqn:E4.
        exists w4, r4. split; [reflexivity|].
        apply lock_slow_interruptible_cases in E4.
        destruct E4 as (_ & Hl & Ha & Hs & [[-> Hk]|[-> Hk]]); repeat split; auto.
      - eexists _, 0. split; [reflexivity|].
        destruct (lock_slow_facts w (bo e) ticket) as (_ & Hl & Ha & Hs & Hk).
        repeat split; auto. }
    destruct Hslow as (w4 & r4 & E4 & Hl & Ha & Hs & Hk). rewrite E4 in H.
    destruct Hk as [[-> Hk]|(-> & Hi & Hk)].
    + cbn [Z.eqb andb] in H.
      destruct (Nat.eqb_spec (num_shared e) 0) as [E0|N0]; cbn [negb] in H.
      * inversion H; subst. repeat split; auto.
      * apply reserve_shared_cases in H.
        destruct H as (_ & Hl5 & Ha5 & Hs5 & Hk5 & [[-> _]| ->]);
          (repeat split; [congruence|congruence|lia|]).
        -- left. repeat split; auto. intros b'. now rewrite Hk5, Hk.
        -- right. left. repeat split; auto. intros b'. now rewrite Hk5, Hk.
    + change (- EINTR =? 0) with false in H. cbn [andb] in H.
      inversion H; subst. repeat split; auto.
      right. right. left. repeat split; auto.
  - apply Z.eqb_neq in Hr. rewrite Hr in H. cbn [andb] in H.
    inversion H; subst. repeat split; auto.
    right. right. right. repeat split; auto.
Qed.

Lemma reserve_loop_end fuel ticket intr w l pos dups :
  nth_error l pos = None ->
  reserve_loop fuel ticket intr w l pos dups = Some (w, l, dups, 0).
Proof. intros H. destruct fuel; simpl; now rewrite H. Qed.

Lemma reserve_inv_snoc w w2 prev e :
  reserve_inv w prev ->
  lock_of w (bo e) <> Some Self ->
  (forall b', lock_of w2 b' = if Nat.eqb b' (bo e) then Some Self else lock_of w b') ->
  reserve_inv w2 (prev ++ [e]).
Proof.
  intros [Hnd Hh] Hfree Hk. split.
  - rewrite map_app. simpl. apply NoDup_app; [assumption|repeat constructor; easy| ].
    intros b Hb [<-|[]]. apply Hh in Hb. contradiction.
  - intros b. rewrite Hk, map_app, in_app_iff. simpl.
    destruct (Nat.eqb_spec b (bo e)) as [->|N].
    + intuition.
    + rewrite Hh. intuition congruence.
Qed.

Lemma reserve_inv_same w w1 prev :
  reserve_inv w prev ->
  (forall b', lock_of w1 b' = Some Self <-> lock_of w b' = Some Self) ->
  reserve_inv w1 prev.
Proof.
  intros [Hnd Hh] Hk. split; [assumption|]. intros b. now rewrite Hk.
Qed.

Lemma nothing_held_rollback w w2 prev :
  reserve_inv w prev ->
  (forall b', lock_of w2 b' = Some Self <-> lock_of w b' = Some Self) ->
  nothing_held (unlock_all w2 (map bo (rev prev))).
Proof.
  intros [Hnd Hh] Hk b Hb.
  destruct (in_dec Nat.eq_dec b (map bo (rev prev))) as [Hin|Hout].
  - rewrite unlock_all_lock_in in Hb by assumption. discriminate.
  - rewrite unlock_all_lock_out in Hb by assumption.
    apply Hk, Hh in Hb. apply Hout. rewrite map_rev, <- in_rev. exact Hb.
Qed.

Lemma reserve_inv_single w5 w3 e :
  nothing_held w3 ->
  (forall b', lock_of w5 b' = if Nat.eqb b' (bo e) then Some Self else lock_of w3 b') ->
  reserve_inv w5 [e].
Proof.
  intros Hn Hk. split.
  - simpl. repeat constructor. easy.
  - intros b. rewrite Hk. simpl.
    destruct (Nat.eqb_spec b (bo e)) as [->|N].
    + intuition.
    + split; [intros H; now apply Hn in H|intros [E|[]]; congruence].
Qed.

(* ================================================================== *)
(** ** What a reservation leaves behind *)

Lemma post_success ticket w l : reserve_inv w l -> reserve_post ticket w l 0.
Proof.
  intros H. unfold reserve_post.
  split; [now left|].
  split; [intros _; exact H|].
  split; [congruence|].
  split; [intros E; discriminate E|congruence].
Qed.

Lemma post_nothing ticket w5 l r :
  nothing_held w5 ->
  r = - EALREADY \/ r = - EBUSY \/ r = - ERESTARTSYS ->
  reserve_post ticket (teardown ticket w5) l r.
Proof.
  intros Hn Hr.
  destruct (teardown_facts ticket w5) as (Ht & _ & Hk & Ha).
  unfold reserve_post. split; [tauto|].
  split; [intros ->; destruct Hr as [H|[H|H]]; discriminate H|].
  split; [intros _ _ b; rewrite Hk; apply Hn|].
  split; [intros ->; destruct Hr as [H|[H|H]]; discriminate H|].
  intros _. split; [exact Ha|]. eexists. exact Ht.
Qed.

Lemma post_nomem ticket w5 l e :
  In e l -> num_shared e <> 0%nat ->
  (forall b, lock_of w5 b = Some Self <-> b = bo e) ->
  reserve_post ticket (teardown ticket w5) l (- ENOMEM).
Proof.
  intros Hin Hn Hh.
  destruct (teardown_facts ticket w5) as (Ht & _ & Hk & Ha).
  unfold reserve_post. split; [tauto|].
  split; [discriminate|].
  split; [congruence|].
  split.
  - intros _. exists e. repeat split; auto; rewrite Hk; apply Hh.
  - intros _. split; [exact Ha|]. eexists. exact Ht.
Qed.

Theorem reserve_loop_post fuel :
  forall ticket intr dups w prev rest w' l' d' r,
    reserve_inv w prev ->
    reserve_loop fuel ticket intr w (prev ++ rest) (length prev) dups
    = Some (w', l', d', r) ->
    reserve_post ticket w' l' r.
Proof.
  induction fuel as [|fuel IH]; intros ticket intr dups w prev rest w' l' d' r Hinv H;
    (destruct rest as [|e next];
     [ rewrite reserve_loop_end in H
         by (apply nth_error_None; rewrite length_app; simpl; lia);
       inversion H; subst; apply post_success; now rewrite app_nil_r | ]).
  - simpl in H. rewrite nth_error_middle in H. discriminate.
  - rewrite reserve_loop_step in H.
    destruct (__ttm_bo_reserve w (bo e) intr (is_null ticket) ticket) as [w1 r1] eqn:E1.
    destruct (ttm_bo_reserve_cases _ _ _ _ _ _ E1) as (_ & _ & _ & _ & Hc).
    destruct Hc as [(-> & Hfree & Hk1) | [(-> & Htk & Hself & Hk1) | (Hr1 & Hk1)]].
    + (* the lock is taken at once *)
      change (0 =? - EALREADY) with false in H. cbv beta iota in H.
      destruct (reserve_slots w1 e 0) as [w2 r2] eqn:E2.
      destruct (reserve_slots_cases _ _ _ _ _ E2)
        as (_ & _ & _ & Hk2 & [(N & _) | [(_ & ->) | (_ & -> & Hn)]]).
      * congruence.
      * change (0 =? 0) with true in H. cbv beta iota in H.
        replace (prev ++ e :: next) with ((prev ++ [e]) ++ next) in H
          by (now rewrite <- app_assoc).
        replace (S (length prev)) with (length (prev ++ [e])) in H
          by (rewrite length_app; simpl; lia).
        eapply IH; [|exact H].
        apply reserve_inv_snoc with w; auto.
        intros b'. rewrite Hk2. apply Hk1.
      * change (- ENOMEM =? 0) with false in H. cbv beta iota in H.
        destruct (recover ticket intr _ e (- ENOMEM)) as [w5 r5] eqn:E5.
        destruct (recover_cases _ _ _ _ _ _ _ E5) as (_ & _ & _ & Hc5); [discriminate|].
        destruct Hc5 as [(E & _) | [(E & _) | [(E & _) | (_ & -> & ->)]]];
          try discriminate E.
        change (- ENOMEM =? 0) with false in H. cbv beta iota in H.
        inversion H; subst. apply post_nomem with e.
        -- apply in_or_app. right. now left.
        -- assumption.
        -- destruct Hinv as [Hnd Hh]. intros b.
           destruct (in_dec Nat.eq_dec b (map bo (rev prev))) as [Hin|Hout].
           ++ rewrite unlock_all_lock_in by assumption.
              split; [discriminate|]. intros ->.
              rewrite map_rev, <- in_rev in Hin. apply Hh in Hin. contradiction.
           ++ rewrite unlock_all_lock_out by assumption. rewrite Hk2, Hk1.
              destruct (Nat.eqb_spec b (bo e)) as [->|N]; [tauto|].
              rewrite Hh. rewrite map_rev, <- in_rev in Hout. tauto.
    + (* this ticket holds the lock already *)
      change (- EALREADY =? - EALREADY) with true in H. cbv beta iota in H.
      assert (Hk1' : forall b', lock_of w1 b' = Some Self <-> lock_of w b' = Some Self)
        by (intros b'; now rewrite Hk1).
      destruct dups as [d|].
      * eapply IH; [|exact H]. now apply reserve_inv_same with w.
      * change (reserve_slots w1 e (- EALREADY)) with (w1, - EALREADY) in H.
        cbv beta iota in H.
        change (- EALREADY =? 0) with false in H. cbv beta iota in H.
        destruct (recover ticket intr _ e (- EALREADY)) as [w5 r5] eqn:E5.
        destruct (recover_cases _ _ _ _ _ _ _ E5) as (_ & _ & _ & Hc5); [discriminate|].
        destruct Hc5 as [(E & _) | [(E & _) | [(E & _) | (_ & -> & ->)]]];
          try discriminate E.
        change (- EALREADY =? 0) with false in H. cbv beta iota in H.
        inversion H; subst. apply post_nothing; [|now left].
        now apply nothing_held_rollback with w.
    + (* the lock is refused *)
      assert (Hne : r1 <> 0 /\ r1 <> - EALREADY)
        by (destruct Hr1 as [[-> _]|[->| ->]]; split; discriminate).
      destruct Hne as [Hn0 Hna].
      apply Z.eqb_neq in Hna. rewrite Hna in H. cbv beta iota in H.
      assert (E2 : reserve_slots w1 e r1 = (w1, r1)).
      { unfold reserve_slots. apply Z.eqb_neq in Hn0. now rewrite Hn0. }
      rewrite E2 in H. cbv beta iota in H.
      pose proof Hn0 as Hn0'. apply Z.eqb_neq in Hn0'. rewrite Hn0' in H.
      pose proof (nothing_held_rollback w w1 prev Hinv Hk1) as Hnone.
      destruct (recover ticket intr _ e r1) as [w5 r5] eqn:E5.
      destruct (recover_cases _ _ _ _ _ _ _ E5 Hn0) as (_ & _ & _ & Hc5).
      destruct Hc5 as [(E & -> & Hk5) | [(E & -> & Hs & Hk5)
                      | [(E & -> & Hi & Hk5) | (Hnd & -> & ->)]]].
      * (* the slow path took the lock: back to the front of the list *)
        change (0 =? 0) with true in H. cbv beta iota in H.
        change (e :: prev ++ next) with ([e] ++ (prev ++ next)) in H.
        change 1%nat with (length [e]) in H.
        eapply IH; [|exact H].
        now apply reserve_inv_single with (unlock_all w1 (map bo (rev prev))).
      * change (- ENOMEM =? 0) with false in H. cbv beta iota in H.
        inversion H; subst. apply post_nomem with e.
        -- apply in_or_app. right. now left.
        -- assumption.
        -- intros b. rewrite Hk5.
           destruct (Nat.eqb_spec b (bo e)) as [->|N]; [tauto|].
           split; [intros Hb; now apply Hnone in Hb|congruence].
      * change (- EINTR =? 0) with false in H. cbv beta iota in H.
        inversion H; subst. apply post_nothing; [|now right; right].
        intros b. rewrite Hk5.
        destruct (Nat.eqb b (bo e)); [discriminate|apply Hnone].
      * rewrite Hn0' in H.
        assert (Hrep : report r1 = r1).
        { destruct Hr1 as [[-> _]|[->| ->]]; [congruence|reflexivity|reflexivity]. }
        rewrite Hrep in H.
        inversion H; subst. apply post_nothing; [assumption|].
        destruct Hr1 as [[-> _]|[->| ->]]; [congruence|tauto|tauto].
Qed.

(* ================================================================== *)
(** ** The scan comes to an end *)

Theorem reserve_loop_terminates fuel :
  forall ticket intr dups w prev rest,
    (length (script w) * S (length (prev ++ rest)) + length rest <= fuel)%nat ->
    exists res,
      reserve_loop fuel ticket intr w (prev ++ rest) (length prev) dups = Some res.
Proof.
  induction fuel as [|fuel IH]; intros ticket intr dups w prev rest Hfuel;
    (destruct rest as [|e next];
     [ eexists; apply reserve_loop_end, nth_error_None;
       rewrite length_app; simpl; lia | ]).
  - simpl in Hfuel. lia.
  - rewrite reserve_loop_step.
    destruct (__ttm_bo_reserve w (bo e) intr (is_null ticket) ticket) as [w1 r1] eqn:E1.
    destruct (ttm_bo_reserve_cases _ _ _ _ _ _ E1) as (_ & _ & _ & Hs1 & Hc).
    rewrite length_app in Hfuel. cbn [length] in Hfuel.
    assert (Hcont : exists res,
      (let '(w2, r2) := reserve_slots w1 e r1 in
       if r2 =? 0 then
         reserve_loop fuel ticket intr w2 (prev ++ e :: next) (S (length prev)) dups
       else
         let '(w5, r5) :=
           recover ticket intr (unlock_all w2 (map bo (rev prev))) e r2 in
         if r5 =? 0 then
           reserve_loop fuel ticket intr w5 (e :: prev ++ next) 1 dups
         else Some (teardown ticket w5, prev ++ e :: next, dups, report r5))
      = Some res).
    { destruct (reserve_slots w1 e r1) as [w2 r2] eqn:E2.
      destruct (reserve_slots_cases _ _ _ _ _ E2) as (_ & _ & Hs2 & _ & Hc2).
      destruct (Z.eqb_spec r2 0) as [E0|N0].
      - replace (prev ++ e :: next) with ((prev ++ [e]) ++ next)
          by (now rewrite <- app_assoc).
        replace (S (length prev)) with (length (prev ++ [e]))
          by (rewrite length_app; simpl; lia).
        apply IH. rewrite !length_app. cbn [length]. nia.
      - destruct (recover ticket intr _ e r2) as [w5 r5] eqn:E5.
        destruct (recover_cases _ _ _ _ _ _ _ E5 N0) as (_ & _ & Hs5 & Hc5).
        rewrite unlock_all_script in Hs5.
        destruct (Z.eqb_spec r5 0) as [E50|N50]; [|eexists; reflexivity].
        assert (Hdead : r2 = - EDEADLK).
        { destruct Hc5 as [(E & _) | [(_ & E & _) | [(_ & E & _) | (_ & E & _)]]];
            [assumption | | | ]; errno_lia. }
        assert (Hlt : (length (script w1) < length (script w))%nat).
        { destruct Hc2 as [(_ & E & _) | [(_ & E) | (_ & E & _)]];
            [ | errno_lia | errno_lia].
          destruct Hc as [(E1' & _) | [(E1' & _) | ([(_ & Hlt) | [E1'|E1']] & _)]];
            [errno_lia | errno_lia | exact Hlt | errno_lia | errno_lia]. }
        change (e :: prev ++ next) with ([e] ++ (prev ++ next)).
        change 1%nat with (length [e]).
        apply IH. cbn [length app]. rewrite !length_app. nia. }
    destruct (r1 =? - EALREADY); [destruct dups as [d|]|]; try exact Hcont.
    apply IH. rewrite length_app. nia.
Qed.

(** [ttm_eu_reserve_buffers] returns. *)
Theorem ttm_eu_reserve_buffers_returns w ticket vlist intr dups :
  exists res, ttm_eu_reserve_buffers w ticket vlist intr dups = Some res.
Proof.
  unfold ttm_eu_reserve_buffers, ttm_eu_reserve_buffers_fuel.
  destruct (list_empty vlist); [eexists; reflexivity|].
  apply (reserve_loop_terminates (reserve_fuel w vlist) ticket intr dups _ [] vlist).
  unfold reserve_fuel. cbn [app].
  assert (E : script (match ticket with
                      | Some t => ww_acquire_init w t
                      | None => w
                      end) = script w) by (now destruct ticket).
  rewrite E. lia.
Qed.

Theorem ttm_eu_reserve_buffers_post w ticket vlist intr dups w' l' d' r :
  nothing_held w ->
  ttm_eu_reserve_buffers w ticket vlist intr dups = Some (w', l', d', r) ->
  reserve_post ticket w' l' r.
Proof.
  intros Hn H. unfold ttm_eu_reserve_buffers, ttm_eu_reserve_buffers_fuel in H.
  assert (Hinv : forall w0, (forall b, lock_of w0 b = lock_of w b) -> reserve_inv w0 []).
  { intros w0 E. split; [constructor|]. intros b. rewrite E. simpl.
    split; [intros Hb; now apply Hn in Hb|tauto]. }
  destruct vlist as [|e l]; cbn [list_empty] in H.
  - inversion H; subst. apply post_success. now apply Hinv.
  - apply (reserve_loop_post _ ticket intr dups _ [] (e :: l)) in H; [assumption|].
    apply Hinv. now destruct ticket.
Qed.

(** More fuel than the scan needs does not change its outcome. *)
Lemma reserve_loop_fuel_mono fuel :
  forall ticket intr w l pos dups res fuel',
    reserve_loop fuel ticket intr w l pos dups = Some res ->
    (fuel <= fuel')%nat ->
    reserve_loop fuel' ticket intr w l pos dups = Some res.
Proof.
  induction fuel as [|fuel IH]; intros ticket intr w l pos dups res fuel' H Hle;
    (destruct (nth_error l pos) as [e|] eqn:E;
     [ | rewrite reserve_loop_end in H |- * by assumption; exact H ]).
  - simpl in H. rewrite E in H. discriminate.
  - destruct (nth_error_split l pos E) as (prev & next & -> & <-).
    destruct fuel' as [|fuel']; [lia|].
    rewrite reserve_loop_step in H |- *.
    destruct (__ttm_bo_reserve w (bo e) intr (is_null ticket) ticket) as [w1 r1].
    assert (Hcont :
      forall res,
        (let '(w2, r2) := reserve_slots w1 e r1 in
         if r2 =? 0 then
           reserve_loop fuel ticket intr w2 (prev ++ e :: next) (S (length prev)) dups
         else
           let '(w5, r5) :=
             recover ticket intr (unlock_all w2 (map bo (rev prev))) e r2 in
           if r5 =? 0 then
             reserve_loop fuel ticket intr w5 (e :: prev ++ next) 1 dups
           else Some (teardown ticket w5, prev ++ e :: next, dups, report r5))
        = Some res ->
        (let '(w2, r2) := reserve_slots w1 e r1 in
         if r2 =? 0 then
           reserve_loop fuel' ticket intr w2 (prev ++ e :: next) (S (length prev)) dups
         else
           let '(w5, r5) :=
             recover ticket intr (unlock_all w2 (map bo (rev prev))) e r2 in
           if r5 =? 0 then
             reserve_loop fuel' ticket intr w5 (e :: prev ++ next) 1 dups
           else Some (teardown ticket w5, prev ++ e :: next, dups, report r5))
        = Some res).
    { intros res0 H0.
      destruct (reserve_slots w1 e r1) as [w2 r2].
      destruct (r2 =? 0); [apply IH with (fuel' := fuel') in H0; [exact H0|lia]|].
      destruct (recover ticket intr _ e r2) as [w5 r5].
      destruct (r5 =? 0); [apply IH with (fuel' := fuel') in H0; [exact H0|lia]|].
      exact H0. }
    destruct (r1 =? - EALREADY); [destruct dups as [d|]|]; try (now apply Hcont).
    apply IH with (fuel' := fuel') in H; [exact H|lia].
Qed.

(** An outcome reached with some fuel is the outcome of
    [ttm_eu_reserve_buffers]. *)
Theorem ttm_eu_reserve_buffers_fuel_enough fuel w ticket vlist intr dups res :
  ttm_eu_reserve_buffers_fuel fuel w ticket vlist intr dups = Some res ->
  ttm_eu_reserve_buffers w ticket vlist intr dups = Some res.
Proof.
  intros H.
  destruct (ttm_eu_reserve_buffers_returns w ticket vlist intr dups) as [res' H'].
  rewrite H'. unfold ttm_eu_reserve_buffers in H'.
  unfold ttm_eu_reserve_buffers_fuel in H, H'.
  destruct (list_empty vlist); [congruence|].
  apply reserve_loop_fuel_mono with (fuel' := Nat.max fuel (reserve_fuel w vlist)) in H;
    [|lia].
  apply reserve_loop_fuel_mono with (fuel' := Nat.max fuel (reserve_fuel w vlist)) in H';
    [|lia].
  congruence.
Qed.

(* ================================================================== *)
(** ** Reservations that fail *)

Lemma ttm_bo_reserve_already w b intr t :
  lock_of w b = Some Self ->
  __ttm_bo_reserve w b intr false (Some t)
  = (emit w (c_reserve b (- EALREADY)), - EALREADY).
Proof. intros H. unfold __ttm_bo_reserve. now rewrite H. Qed.

(** The iteration on an entry whose resource this ticket holds already,
    with no duplicates list: [-EALREADY] is returned, the locks taken
    earlier in the pass are released, last to first, and the ticket is
    finalised as the last step; the batch holds no lock afterwards. *)
Lemma already_reserved_step :
  forall fuel t intr w prev entry next,
    reserve_inv w prev ->
    lock_of w (bo entry) = Some Self ->
    exists w',
      reserve_loop (S fuel) (Some t) intr w (prev ++ entry :: next) (length prev) None
      = Some (w', prev ++ entry :: next, None, - EALREADY) /\
      nothing_held w' /\
      (forall p, In p prev -> lock_of w' (bo p) = None) /\
      acquire w' t = CtxFini /\
      trace w' = trace w ++ c_reserve (bo entry) (- EALREADY)
                   :: map c_unlock (map bo (rev prev))
                   ++ [c_ww_acquire_done t; c_ww_acquire_fini t].
Proof.
  intros fuel t intr w prev entry next Hinv Hself.
  rewrite reserve_loop_step. cbn [is_null].
  rewrite ttm_bo_reserve_already by assumption.
  pose (w1 := emit w (c_reserve (bo entry) (- EALREADY))).
  pose (w3 := unlock_all w1 (map bo (rev prev))).
  exists (teardown (Some t) w3). split; [reflexivity|].
  destruct (teardown_facts (Some t) w3) as (Ht & _ & Hk & Ha).
  assert (Hnone : nothing_held w3) by (now apply nothing_held_rollback with w).
  split; [intros b; rewrite Hk; apply Hnone|].
  split.
  { intros p Hp. rewrite Hk. apply unlock_all_lock_in.
    rewrite map_rev, <- in_rev. now apply in_map. }
  split; [now apply Ha|].
  rewrite Ht. unfold w3. rewrite unlock_all_trace.
  unfold w1. cbn [emit trace teardown_calls].
  rewrite <- !app_assoc. reflexivity.
Qed.

(** The iteration in which the lock attempt of a cancellable batch answers
    [-EDEADLK] and the slow wait that follows is interrupted:
    [-ERESTARTSYS] is returned, the locks taken earlier in the pass were
    released before the wait, the ticket is finalised as the last step, and
    the batch holds no lock afterwards. *)
Lemma interrupted_slow_wait_step :
  forall fuel t w prev entry next dups w1 w2,
    reserve_inv w prev ->
    __ttm_bo_reserve w (bo entry) true false (Some t) = (w1, - EDEADLK) ->
    dma_resv_lock_slow_interruptible
      (ttm_eu_backoff_reservation_reverse w1 (prev ++ entry :: next) (length prev))
      (bo entry) (Some t) = (w2, - EINTR) ->
    exists w',
      reserve_loop (S fuel) (Some t) true w (prev ++ entry :: next) (length prev) dups
      = Some (w', prev ++ entry :: next, dups, - ERESTARTSYS) /\
      nothing_held w' /\
      (forall p, In p prev -> lock_of w' (bo p) = None) /\
      acquire w' t = CtxFini /\
      trace w' = trace w ++ c_reserve (bo entry) (- EDEADLK)
                   :: map c_unlock (map bo (rev prev))
                   ++ [c_lock_slow (bo entry) (- EINTR);
                       c_ww_acquire_done t; c_ww_acquire_fini t].
Proof.
  intros fuel t w prev entry next dups w1 w2 Hinv E1 E2.
  rewrite backoff_reverse_unlock_all in E2.
  rewrite reserve_loop_step. cbn [is_null]. rewrite E1.
  change (- EDEADLK =? - EALREADY) with false. cbv beta iota.
  change (reserve_slots w1 entry (- EDEADLK)) with (w1, - EDEADLK). cbv beta iota.
  change (- EDEADLK =? 0) with false. cbv beta iota.
  unfold recover. change (- EDEADLK =? - EDEADLK) with true. cbv beta iota.
  rewrite E2. change (- EINTR =? 0) with false. cbn [andb]. cbv beta iota.
  change (report (- EINTR)) with (- ERESTARTSYS).
  exists (teardown (Some t) w2). split; [reflexivity|].
  destruct (ttm_bo_reserve_cases _ _ _ (Some t) _ _ E1) as (Ht1 & _ & _ & _ & Hc).
  assert (Hk1 : forall b', lock_of w1 b' = Some Self <-> lock_of w b' = Some Self).
  { destruct Hc as [(E & _) | [(E & _) | (_ & Hk1)]];
      [discriminate E|discriminate E|exact Hk1]. }
  pose proof (nothing_held_rollback w w1 prev Hinv Hk1) as Hnone.
  destruct (lock_slow_interruptible_cases _ _ _ _ _ E2) as (Ht2 & _ & _ & _ & Hc2).
  assert (Hk2 : forall b', lock_of w2 b'
            = if Nat.eqb b' (bo entry) then Some Other
              else lock_of (unlock_all w1 (map bo (rev prev))) b').
  { destruct Hc2 as [(E & _) | (_ & Hk2)]; [discriminate E|exact Hk2]. }
  destruct (teardown_facts (Some t) w2) as (Ht & _ & Hk & Ha).
  assert (Hnone2 : nothing_held w2).
  { intros b. rewrite Hk2. destruct (Nat.eqb b (bo entry)); [discriminate|apply Hnone]. }
  split; [intros b; rewrite Hk; apply Hnone2|].
  split.
  { intros p Hp. rewrite Hk, Hk2.
    destruct (Nat.eqb_spec (bo p) (bo entry)) as [E|N].
    - exfalso. destruct Hinv as [_ Hh].
      assert (Hin : In (bo entry) (map bo prev)) by (rewrite <- E; now apply in_map).
      apply Hh in Hin.
      unfold __ttm_bo_reserve in E1. cbv beta iota zeta in E1.
      rewrite Hin in E1. inversion E1.
    - apply unlock_all_lock_in. rewrite map_rev, <- in_rev. now apply in_map. }
  split; [now apply Ha|].
  rewrite Ht, Ht2, unlock_all_trace, Ht1. cbn [teardown_calls].
  rewrite <- !app_assoc. reflexivity.
Qed.

(* ================================================================== *)
(** ** Scans in which every lock is taken at once *)

Lemma reserve_slots_zero w1 e r1 w2 :
  reserve_slots w1 e r1 = (w2, 0) -> r1 = 0.
Proof.
  unfold reserve_slots. destruct (Z.eqb_spec r1 0); [easy|].
  intros H. inversion H. congruence.
Qed.

Lemma reserve_loop_immediate mid : forall fuel ticket intr w prev rest dups w',
  immediate_scan ticket intr w mid = Some w' ->
  reserve_loop (length mid + fuel) ticket intr w (prev ++ mid ++ rest) (length prev) dups
  = reserve_loop fuel ticket intr w' (prev ++ mid ++ rest) (length (prev ++ mid)) dups.
Proof.
  induction mid as [|e mid IH]; intros fuel ticket intr w prev rest dups w' H.
  - simpl in H. inversion H; subst. now rewrite app_nil_r.
  - cbn [immediate_scan] in H. cbn [length Nat.add app].
    rewrite reserve_loop_step.
    destruct (__ttm_bo_reserve w (bo e) intr (is_null ticket) ticket) as [w1 r1].
    destruct (reserve_slots w1 e r1) as [w2 r2] eqn:E2.
    destruct (Z.eqb_spec r2 0) as [->|N]; [|discriminate].
    apply reserve_slots_zero in E2. subst r1.
    change (0 =? - EALREADY) with false. cbv beta iota.
    replace (prev ++ e :: mid ++ rest) with ((prev ++ [e]) ++ mid ++ rest)
      by (now rewrite <- app_assoc).
    replace (S (length prev)) with (length (prev ++ [e]))
      by (rewrite length_app; simpl; lia).
    rewrite (IH fuel ticket intr w2 (prev ++ [e]) rest dups w' H).
    rewrite <- !app_assoc. reflexivity.
Qed.

Lemma immediate_scan_inv ticket intr l : forall w prev w',
  reserve_inv w prev ->
  immediate_scan ticket intr w l = Some w' ->
  reserve_inv w' (prev ++ l).
Proof.
  induction l as [|e l IH]; intros w prev w' Hinv H.
  - simpl in H. inversion H; subst. now rewrite app_nil_r.
  - cbn [immediate_scan] in H.
    destruct (__ttm_bo_reserve w (bo e) intr (is_null ticket) ticket) as [w1 r1] eqn:E1.
    destruct (reserve_slots w1 e r1) as [w2 r2] eqn:E2.
    destruct (Z.eqb_spec r2 0) as [->|N]; [|discriminate].
    pose proof (reserve_slots_zero _ _ _ _ E2) as ->.
    destruct (reserve_slots_cases _ _ _ _ _ E2) as (_ & _ & _ & Hk2 & _).
    destruct (ttm_bo_reserve_cases _ _ _ _ _ _ E1) as (_ & _ & _ & _ & Hc).
    destruct Hc as [(_ & Hfree & Hk1) | [(E & _) | ([(E & _) | [E|E]] & _)]];
      try discriminate E.
    replace (prev ++ e :: l) with ((prev ++ [e]) ++ l) by (now rewrite <- app_assoc).
    apply IH with w2; [|assumption].
    apply reserve_inv_snoc with w; auto.
    intros b'. rewrite Hk2. apply Hk1.
Qed.

(** C10. When every entry of the list is locked at once (each lock attempt
    and each slot reservation answers 0, so that no rollback, no slow wait
    and no duplicate occurs), [ttm_eu_reserve_buffers] returns 0 and leaves
    the validate list, and the duplicates list, exactly as they were. *)
Theorem immediate_reservation_keeps_list :
  forall w ticket vlist intr dups w',
    immediate_scan ticket intr (with_ticket w ticket) vlist = Some w' ->
    ttm_eu_reserve_buffers w ticket vlist intr dups
    = Some (if list_empty vlist then w else w', vlist, dups, 0).
Proof.
  intros w ticket vlist intr dups w' H.
  unfold ttm_eu_reserve_buffers, ttm_eu_reserve_buffers_fuel.
  destruct vlist as [|e l]; [reflexivity|]. cbn [list_empty].
  fold (with_ticket w ticket).
  assert (Hfuel : exists k, reserve_fuel w (e :: l) = (length (e :: l) + k)%nat).
  { unfold reserve_fuel. exists (length (script w) * S (length (e :: l)) + 1)%nat. lia. }
  destruct Hfuel as [k ->].
  pose proof (reserve_loop_immediate (e :: l) k ticket intr
                (with_ticket w ticket) [] [] dups w' H) as E.
  rewrite app_nil_r in E. cbn [app] in E. cbn [app length] in E |- *.
  rewrite E. apply reserve_loop_end, nth_error_None. simpl. lia.
Qed.

(* ================================================================== *)
(** ** Reservations that meet no obstacle *)

Lemma calm_reserve w b intr t :
  calm w -> lock_of w b <> Some Self ->
  exists w1, __ttm_bo_reserve w b intr false (Some t) = (w1, 0) /\
             calm w1 /\ trace w1 = trace w ++ [c_reserve b 0].
Proof.
  intros Hc Hf. unfold __ttm_bo_reserve, next_event, calm in *.
  destruct w as [rv l a s tr]. cbn [script] in Hc.
  destruct (lock_of _ b) as [[|]|] eqn:Hl; [congruence| |];
    (destruct s as [|ev s];
     [ eexists; split; [reflexivity|split; [constructor|reflexivity]]
     | inversion Hc as [|? ? Hev Hs]; subst;
       eexists; split; [reflexivity|split; [exact Hs|reflexivity]] ]).
Qed.

Lemma calm_reserve_slots w e :
  calm w ->
  exists w2, reserve_slots w e 0 = (w2, 0) /\
             calm w2 /\
             trace w2 = trace w ++ (if Nat.eqb (num_shared e) 0 then []
                                    else [c_reserve_shared (bo e) (num_shared e) 0]).
Proof.
  intros Hc. unfold reserve_slots. cbn [Z.eqb].
  destruct (Nat.eqb (num_shared e) 0).
  - exists w. rewrite app_nil_r. auto.
  - unfold dma_resv_reserve_shared, next_event, calm in *.
    destruct w as [rv l a s tr]. cbn [script] in Hc.
    destruct s as [|ev s].
    + eexists; split; [reflexivity|split; [constructor|reflexivity]].
    + inversion Hc as [|? ? Hev Hs]; subst.
      eexists; split; [reflexivity|split; [exact Hs|reflexivity]].
Qed.

Lemma calm_immediate_scan t intr l : forall w,
  calm w ->
  NoDup (map bo l) ->
  (forall e, In e l -> lock_of w (bo e) <> Some Self) ->
  exists w', immediate_scan (Some t) intr w l = Some w' /\
             calm w' /\ trace w' = trace w ++ flat_map lock_calls l.
Proof.
  induction l as [|e l IH]; intros w Hc Hnd Hfree.
  - exists w. simpl. rewrite app_nil_r. auto.
  - cbn [immediate_scan is_null].
    destruct (calm_reserve w (bo e) intr t Hc) as (w1 & E1 & Hc1 & Ht1);
      [apply Hfree; now left|].
    rewrite E1.
    destruct (calm_reserve_slots w1 e Hc1) as (w2 & E2 & Hc2 & Ht2).
    rewrite E2. cbn [Z.eqb].
    simpl in Hnd. inversion Hnd as [|? ? Hout Hnd']; subst.
    destruct (IH w2 Hc2 Hnd') as (w' & E & Hc' & Ht').
    { intros e' He' Hheld.
      destruct (reserve_slots_cases _ _ _ _ _ E2) as (_ & _ & _ & Hk2 & _).
      destruct (ttm_bo_reserve_cases _ _ _ (Some t) _ _ E1) as (_ & _ & _ & _ & Hk).
      destruct Hk as [(_ & _ & Hk1) | [(E & _) | ([(E & _) | [E|E]] & _)]];
        try discriminate E.
      rewrite Hk2, Hk1 in Hheld.
      destruct (Nat.eqb_spec (bo e') (bo e)) as [Eb|N].
      - apply Hout. rewrite <- Eb. now apply in_map.
      - apply (Hfree e'); [now right|assumption]. }
    exists w'. split; [exact E|]. split; [exact Hc'|].
    rewrite Ht', Ht2, Ht1. unfold lock_calls at 2. cbn [flat_map].
    rewrite <- !app_assoc. reflexivity.
Qed.

Lemma NoDup_app_apart {A : Type} (l1 l2 : list A) a :
  NoDup (l1 ++ l2) -> In a l1 -> In a l2 -> False.
Proof.
  intros Hnd H1 H2. apply in_split in H2. destruct H2 as (x & y & ->).
  rewrite app_assoc in Hnd. apply NoDup_remove_2 in Hnd.
  apply Hnd. apply in_or_app. left. apply in_or_app. now left.
Qed.

(** When the environment raises no obstacle, a list that names one
    resource twice and every other resource once is reserved with these
    calls: one lock attempt per entry, the one on the second occurrence
    answered [-EALREADY]. *)
Lemma calm_duplicate_run :
  forall w t intr l1 e1 l2 e2 l3 d,
    calm w ->
    nothing_held w ->
    bo e2 = bo e1 ->
    NoDup (map bo (l1 ++ e1 :: l2 ++ l3)) ->
    exists w',
      ttm_eu_reserve_buffers w (Some t) (l1 ++ e1 :: l2 ++ e2 :: l3) intr (Some d)
      = Some (w', l1 ++ e1 :: l2 ++ l3, Some (e2 :: d), 0) /\
      (forall b, lock_of w' b = Some Self <-> In b (map bo (l1 ++ e1 :: l2 ++ l3))) /\
      trace w' = trace w ++ c_ww_acquire_init t
                   :: flat_map lock_calls (l1 ++ e1 :: l2)
                   ++ c_reserve (bo e2) (- EALREADY)
                   :: flat_map lock_calls l3.
Proof.
  intros w t intr l1 e1 l2 e2 l3 d Hc Hn Hbo Hnd.
  set (A := l1 ++ e1 :: l2).
  assert (EA : l1 ++ e1 :: l2 ++ l3 = A ++ l3)
    by (unfold A; now rewrite <- app_assoc).
  assert (EV : l1 ++ e1 :: l2 ++ e2 :: l3 = A ++ e2 :: l3)
    by (unfold A; now rewrite <- app_assoc).
  rewrite EA in *. rewrite EV. clear EA EV.
  rewrite map_app in Hnd.
  pose proof (NoDup_app_remove_r _ _ Hnd) as HndA.
  pose proof (NoDup_app_remove_l _ _ Hnd) as Hnd3.
  set (w0 := ww_acquire_init w t).
  assert (Hc0 : calm w0) by exact Hc.
  assert (Hinv0 : reserve_inv w0 []).
  { split; [constructor|]. intros b. simpl. split; [intros Hb; now apply Hn in Hb|tauto]. }
  destruct (calm_immediate_scan t intr A w0 Hc0 HndA) as (wA & ESA & HcA & HtA).
  { intros e _. apply Hn. }
  pose proof (immediate_scan_inv (Some t) intr A w0 [] wA Hinv0 ESA) as HinvA.
  cbn [app] in HinvA.
  assert (Hself : lock_of wA (bo e2) = Some Self).
  { apply HinvA. rewrite Hbo. unfold A. rewrite map_app. apply in_or_app.
    right. now left. }
  set (wB := emit wA (c_reserve (bo e2) (- EALREADY))).
  assert (HinvB : reserve_inv wB A) by exact HinvA.
  assert (HcB : calm wB) by exact HcA.
  destruct (calm_immediate_scan t intr l3 wB HcB Hnd3) as (wC & ESC & HcC & HtC).
  { intros e He Hheld. apply HinvA in Hheld.
    apply (NoDup_app_apart _ _ (bo e) Hnd Hheld). now apply in_map. }
  pose proof (immediate_scan_inv (Some t) intr l3 wB A wC HinvB ESC) as HinvC.
  exists wC. split; [|split].
  - unfold ttm_eu_reserve_buffers, ttm_eu_reserve_buffers_fuel.
    assert (Hne : list_empty (A ++ e2 :: l3) = false)
      by (destruct A; reflexivity).
    rewrite Hne. fold w0.
    assert (Hfuel : exists k, reserve_fuel w (A ++ e2 :: l3)
                              = (length A + S (length l3 + k))%nat).
    { unfold reserve_fuel. rewrite length_app. cbn [length].
      exists (length (script w) * S (length A + S (length l3)) + 1)%nat. lia. }
    destruct Hfuel as [k ->].
    pose proof (reserve_loop_immediate A (S (length l3 + k)) (Some t) intr w0 []
                  (e2 :: l3) (Some d) wA ESA) as E1.
    cbn [app length] in E1. rewrite E1.
    rewrite reserve_loop_step. cbn [is_null].
    rewrite ttm_bo_reserve_already by assumption.
    change (- EALREADY =? - EALREADY) with true. cbv beta iota. fold wB.
    pose proof (reserve_loop_immediate l3 k (Some t) intr wB A [] (Some (e2 :: d))
                  wC ESC) as E2.
    rewrite app_nil_r in E2. rewrite E2.
    apply reserve_loop_end, nth_error_None. lia.
  - apply HinvC.
  - rewrite HtC. unfold wB. cbn [emit trace]. rewrite HtA.
    unfold w0, ww_acquire_init. cbn [emit trace set_phase].
    rewrite <- !app_assoc. reflexivity.
Qed.

(** The iteration in which the lock attempt on the current entry answers
    [-EDEADLK] and the slow path then takes the lock (and the slots): the
    entry goes to the front of the validate list and the next iteration is
    on the entry after it.  The batch holds the lock of the current entry
    and no other, and a lock attempt on an entry locked earlier is not
    answered [-EALREADY]. *)
Lemma slow_path_step :
  forall fuel ticket intr w prev entry next dups w1 w5,
    reserve_inv w prev ->
    __ttm_bo_reserve w (bo entry) intr (is_null ticket) ticket = (w1, - EDEADLK) ->
    recover ticket intr
      (ttm_eu_backoff_reservation_reverse w1 (prev ++ entry :: next) (length prev))
      entry (- EDEADLK) = (w5, 0) ->
    reserve_loop (S fuel) ticket intr w (prev ++ entry :: next) (length prev) dups
    = reserve_loop fuel ticket intr w5 (list_add entry (prev ++ next)) 1 dups /\
    reserve_inv w5 [entry] /\
    (forall p, In p prev ->
       lock_of w5 (bo p) = None /\
       snd (__ttm_bo_reserve w5 (bo p) intr (is_null ticket) ticket) <> - EALREADY).
Proof.
  intros fuel ticket intr w prev entry next dups w1 w5 Hinv E1 E5.
  rewrite backoff_reverse_unlock_all in E5.
  destruct (ttm_bo_reserve_cases _ _ _ _ _ _ E1) as (_ & _ & _ & _ & Hc).
  assert (Hk1 : (forall b', lock_of w1 b' = Some Self <-> lock_of w b' = Some Self)
                /\ lock_of w (bo entry) <> Some Self).
  { destruct Hc as [(E & _) | [(E & _) | (_ & Hk1)]];
      [discriminate E|discriminate E|].
    split; [exact Hk1|]. intros Hself.
    unfold __ttm_bo_reserve in E1. destruct ticket as [t|]; cbn [is_null] in E1.
    - rewrite Hself in E1. inversion E1.
    - rewrite Hself in E1. inversion E1. }
  destruct Hk1 as [Hk1 Hfree].
  pose proof (nothing_held_rollback w w1 prev Hinv Hk1) as Hnone.
  destruct (recover_cases _ _ _ _ _ _ _ E5) as (_ & _ & _ & Hc5); [discriminate|].
  assert (Hk5 : forall b', lock_of w5 b'
            = if Nat.eqb b' (bo entry) then Some Self
              else lock_of (unlock_all w1 (map bo (rev prev))) b').
  { destruct Hc5 as [(_ & _ & Hk5) | [(_ & E & _) | [(_ & E & _) | (E & _)]]];
      [exact Hk5|discriminate E|discriminate E|congruence]. }
  split; [|split].
  - rewrite reserve_loop_step. rewrite E1.
    change (- EDEADLK =? - EALREADY) with false. cbv beta iota.
    change (reserve_slots w1 entry (- EDEADLK)) with (w1, - EDEADLK). cbv beta iota.
    change (- EDEADLK =? 0) with false. cbv beta iota.
    rewrite E5. reflexivity.
  - now apply reserve_inv_single with (unlock_all w1 (map bo (rev prev))).
  - intros p Hp.
    assert (Hne : bo p <> bo entry).
    { intros E. apply Hfree. apply Hinv. rewrite <- E. now apply in_map. }
    assert (Hnull : lock_of w5 (bo p) = None).
    { rewrite Hk5. apply Nat.eqb_neq in Hne. rewrite Hne.
      apply unlock_all_lock_in. rewrite map_rev, <- in_rev. now apply in_map. }
    split; [exact Hnull|].
    destruct (__ttm_bo_reserve w5 (bo p) intr (is_null ticket) ticket) as [w6 r6] eqn:E6.
    destruct (ttm_bo_reserve_cases _ _ _ _ _ _ E6) as (_ & _ & _ & _ & Hc6).
    cbn [snd]. intros ->.
    destruct Hc6 as [(E & _) | [(_ & _ & Hs & _) | ([(E & _) | [E|E]] & _)]];
      try discriminate E. congruence.
Qed.

(** C7, as first stated, fails.  Entry 1 is locked in the first pass and
    released when entry 2 is contended.  When the scan comes back to
    entry 1 the attempt is answered [-EDEADLK], not [-EALREADY]: the batch
    rolls back and waits again, and no entry is taken for a duplicate.  In
    the second run a signal interrupts that second wait: the call returns
    [-ERESTARTSYS] and entry 3, which was behind the cursor all along, is
    never attempted. *)
Lemma relocked_entry_contends_again :
  observe (ttm_eu_reserve_buffers (world0 [] [EvGrant; EvBusy; EvGrant; EvBusy])
             (Some 7%nat) [vb 1 0; vb 2 0] true (Some []))
  = Some ([c_ww_acquire_init 7%nat;
           c_reserve 1%nat 0; c_reserve 2%nat (- EDEADLK);
           c_unlock 1%nat; c_lock_slow 2%nat 0;
           c_reserve 1%nat (- EDEADLK);
           c_unlock 2%nat; c_lock_slow 1%nat 0;
           c_reserve 2%nat 0],
          [vb 1 0; vb 2 0], Some [], 0) /\
  observe (ttm_eu_reserve_buffers
             (world0 [] [EvGrant; EvBusy; EvGrant; EvBusy; EvSignal])
             (Some 7%nat) [vb 1 0; vb 2 0; vb 3 0] true (Some []))
  = Some ([c_ww_acquire_init 7%nat;
           c_reserve 1%nat 0; c_reserve 2%nat (- EDEADLK);
           c_unlock 1%nat; c_lock_slow 2%nat 0;
           c_reserve 1%nat (- EDEADLK);
           c_unlock 2%nat; c_lock_slow 1%nat (- EINTR);
           c_ww_acquire_done 7%nat; c_ww_acquire_fini 7%nat],
          [vb 2 0; vb 1 0; vb 3 0], Some [], - ERESTARTSYS).
Proof. split; vm_compute; reflexivity. Qed.

(** C1: the two runs in which the claim fails.  The slots of the only
    entry cannot be reserved, at once or after the slow path took the
    lock: [-ENOMEM] is returned and the ticket is finalised while the lock
    of the entry is still held. *)
Lemma enomem_leaves_entry_locked :
  match ttm_eu_reserve_buffers (world0 [] [EvGrant; EvNoMem])
          (Some 7%nat) [vb 1 1] true (Some []) with
  | Some (w', l', d', r) =>
      r = - ENOMEM /\ lock_of w' 1%nat = Some Self /\ acquire w' 7%nat = CtxFini /\
      trace w' = [c_ww_acquire_init 7%nat; c_reserve 1%nat 0;
                  c_reserve_shared 1%nat 1 (- ENOMEM);
                  c_ww_acquire_done 7%nat; c_ww_acquire_fini 7%nat]
  | None => False
  end /\
  match ttm_eu_reserve_buffers (world0 [] [EvBusy; EvGrant; EvNoMem])
          (Some 7%nat) [vb 1 1] true (Some []) with
  | Some (w', l', d', r) =>
      r = - ENOMEM /\ lock_of w' 1%nat = Some Self /\ acquire w' 7%nat = CtxFini /\
      trace w' = [c_ww_acquire_init 7%nat; c_reserve 1%nat (- EDEADLK);
                  c_lock_slow 1%nat 0; c_reserve_shared 1%nat 1 (- ENOMEM);
                  c_ww_acquire_done 7%nat; c_ww_acquire_fini 7%nat]
  | None => False
  end.
Proof. vm_compute. repeat split. Qed.


(* ================================================================== *)
(** ** The theorems at work on small batches *)

Lemma nothing_held_world0 l s : nothing_held (world0 l s).
Proof. intros b. discriminate. Qed.

Lemma reserve_inv_locked_world s t l :
  immediate_scan (Some t) true (with_ticket (world0 [] s) (Some t)) l
  = Some (locked_world s t l) ->
  reserve_inv (locked_world s t l) l.
Proof.
  intros H.
  apply (immediate_scan_inv (Some t) true l (with_ticket (world0 [] s) (Some t)) []);
    [|exact H].
  split; [constructor|]. intros b. split; [discriminate|contradiction].
Qed.

Lemma immediate_reservation_keeps_list_witness :
  let w := world0 [] [EvGrant; EvGrant; EvGrant; EvBusy] in
  let vlist := [vb 1 0; vb 2 1] in
  let w' := locked_world [EvGrant; EvGrant; EvGrant; EvBusy] 7%nat vlist in
  ttm_eu_reserve_buffers w (Some 7%nat) vlist true (Some [vb 9 0])
  = Some (if list_empty vlist then w else w', vlist, Some [vb 9 0], 0).
Proof.
  cbv zeta.
  apply (immediate_reservation_keeps_list
           (world0 [] [EvGrant; EvGrant; EvGrant; EvBusy]) (Some 7%nat)
           [vb 1 0; vb 2 1] true (Some [vb 9 0])
           (locked_world [EvGrant; EvGrant; EvGrant; EvBusy] 7%nat [vb 1 0; vb 2 1])).
  vm_compute. reflexivity.
Defined.


(* ================================================================== *)
(** ** ALIGN_DOWN *)

Lemma align_kernel_is_ALIGN_KERNEL bits : is_ALIGN_KERNEL bits (align_kernel bits).
Proof. intros x a. reflexivity. Qed.

(** The subtraction and the addition of [a - 1] cancel, also when the
    subtraction wraps around: only the mask is left. *)
Lemma ALIGN_DOWN_ldiff bits f x a :
  is_ALIGN_KERNEL bits f ->
  0 <= bits ->
  0 <= x < 2 ^ bits ->
  ALIGN_DOWN bits f x a = Z.ldiff x (a - 1).
Proof.
  intros Hf Hb Hx. unfold ALIGN_DOWN. rewrite Hf. unfold wrap.
  assert (Hp : 2 ^ bits <> 0) by lia.
  rewrite Zplus_mod_idemp_l.
  replace (x - (a - 1) + (a - 1)) with x by lia.
  rewrite (Z.mod_small x) by assumption.
  rewrite <- (Z.land_ones (Z.lnot (a - 1))) by assumption.
  rewrite (Z.land_comm (Z.lnot (a - 1))), Z.land_assoc.
  rewrite (Z.land_ones x) by assumption.
  rewrite (Z.mod_small x) by assumption.
  symmetry. apply Z.ldiff_land.
Qed.

Lemma ldiff_below x m : 0 <= x -> 0 <= Z.ldiff x m <= x.
Proof.
  intros Hx. split; [apply Z.ldiff_nonneg; now left|].
  assert (E : x = Z.ldiff x m + Z.land x m).
  { assert (H0 : Z.land (Z.ldiff x m) (Z.land x m) = 0).
    { rewrite (Z.land_comm x m), Z.land_assoc, Z.land_ldiff. apply Z.land_0_l. }
    rewrite (Z.add_nocarry_lxor _ _ H0), (Z.lxor_lor _ _ H0).
    symmetry. apply Z.lor_ldiff_and. }
  assert (0 <= Z.land x m) by (apply Z.land_nonneg; now left).
  lia.
Qed.

(** X1. For a power of two [a = 2^k], [ALIGN_DOWN(x, a)] is the largest
    multiple of [a] that is not above [x]; this holds for small [x] too,
    where [x - (a - 1)] wraps around. *)
Theorem ALIGN_DOWN_power_of_two :
  forall bits f x k,
    is_ALIGN_KERNEL bits f ->
    0 <= k < bits ->
    0 <= x < 2 ^ bits ->
    ALIGN_DOWN bits f x (2 ^ k) = x - x mod 2 ^ k /\
    (ALIGN_DOWN bits f x (2 ^ k)) mod 2 ^ k = 0 /\
    ALIGN_DOWN bits f x (2 ^ k) <= x < ALIGN_DOWN bits f x (2 ^ k) + 2 ^ k.
Proof.
  intros bits f x k Hf Hk Hx.
  assert (Hp : 0 < 2 ^ k) by (apply Z.pow_pos_nonneg; lia).
  assert (E : ALIGN_DOWN bits f x (2 ^ k) = x / 2 ^ k * 2 ^ k).
  { rewrite (ALIGN_DOWN_ldiff bits f x (2 ^ k) Hf) by lia.
    replace (2 ^ k - 1) with (Z.ones k) by (rewrite Z.ones_equiv; lia).
    rewrite Z.ldiff_ones_r by lia.
    rewrite Z.shiftl_mul_pow2, Z.shiftr_div_pow2 by lia. reflexivity. }
  rewrite E.
  pose proof (Z.div_mod x (2 ^ k)) as Hdm.
  pose proof (Z.mod_pos_bound x (2 ^ k) Hp) as Hm.
  split; [lia|]. split; [apply Z.mod_mul; lia|lia].
Qed.

Lemma ALIGN_DOWN_power_of_two_witness :
  ALIGN_DOWN 64 (align_kernel 64) 5 (2 ^ 12) = 5 - 5 mod 2 ^ 12 /\
  (ALIGN_DOWN 64 (align_kernel 64) 5 (2 ^ 12)) mod 2 ^ 12 = 0 /\
  ALIGN_DOWN 64 (align_kernel 64) 5 (2 ^ 12) <= 5
    < ALIGN_DOWN 64 (align_kernel 64) 5 (2 ^ 12) + 2 ^ 12.
Proof.
  apply (ALIGN_DOWN_power_of_two 64 (align_kernel 64) 5 12).
  - apply align_kernel_is_ALIGN_KERNEL.
  - lia.
  - lia.
Defined.

(** X2. Whatever the alignment [a], [ALIGN_DOWN(x, a)] never exceeds [x],
    and aligning down a second time changes nothing. *)
Theorem ALIGN_DOWN_below_idempotent :
  forall bits f x a,
    is_ALIGN_KERNEL bits f ->
    0 <= bits ->
    0 <= x < 2 ^ bits ->
    0 <= ALIGN_DOWN bits f x a <= x /\
    ALIGN_DOWN bits f (ALIGN_DOWN bits f x a) a = ALIGN_DOWN bits f x a.
Proof.
  intros bits f x a Hf Hb Hx.
  rewrite (ALIGN_DOWN_ldiff bits f x a Hf Hb Hx).
  pose proof (ldiff_below x (a - 1) (proj1 Hx)) as Hl.
  split; [exact Hl|].
  rewrite (ALIGN_DOWN_ldiff bits f _ a Hf Hb) by lia.
  rewrite Z.ldiff_ldiff_l, Z.lor_diag. reflexivity.
Qed.

Lemma ALIGN_DOWN_below_idempotent_witness :
  0 <= ALIGN_DOWN 32 (align_kernel 32) 1000 24 <= 1000 /\
  ALIGN_DOWN 32 (align_kernel 32) (ALIGN_DOWN 32 (align_kernel 32) 1000 24) 24
  = ALIGN_DOWN 32 (align_kernel 32) 1000 24.
Proof.
  apply (ALIGN_DOWN_below_idempotent 32 (align_kernel 32) 1000 24).
  - apply align_kernel_is_ALIGN_KERNEL.
  - lia.
  - lia.
Defined.

(* ================================================================== *)
(** ** What the scan leaves alone *)

Lemma same_fences_refl w : same_fences w w.
Proof. intros b. auto. Qed.

Lemma same_fences_trans w1 w2 w3 :
  same_fences w1 w2 -> same_fences w2 w3 -> same_fences w1 w3.
Proof.
  intros H12 H23 b. destruct (H12 b) as (E1 & S1 & M1).
  destruct (H23 b) as (E2 & S2 & M2). repeat split; try congruence. lia.
Qed.

Lemma evolves_refl ticket w : evolves ticket w w.
Proof.
  repeat split; try apply same_fences_refl.
  exists []. split; [now rewrite app_nil_r|constructor].
Qed.

Lemma evolves_trans ticket w1 w2 w3 :
  evolves ticket w1 w2 -> evolves ticket w2 w3 -> evolves ticket w1 w3.
Proof.
  intros (L1 & A1 & F1 & tr1 & T1 & C1) (L2 & A2 & F2 & tr2 & T2 & C2).
  split; [congruence|]. split; [congruence|].
  split; [now apply same_fences_trans with w2|].
  exists (tr1 ++ tr2). split; [rewrite T2, T1; now rewrite app_assoc|].
  apply Forall_app. now split.
Qed.

Ltac evolve_facts :=
  unfold evolves, same_fences; simpl;
  split; [reflexivity|]; split; [reflexivity|]; split;
  [ intros b'; unfold set_lock, set_resv, upd; simpl;
    try match goal with
    | |- context [Nat.eqb ?x ?y] => destruct (Nat.eqb_spec x y); subst; simpl
    end; repeat split; auto; lia
  | eexists; split; [reflexivity|]; repeat constructor; simpl; auto ].

Lemma evolves_reserve ticket w b intr w1 r :
  __ttm_bo_reserve w b intr (is_null ticket) ticket = (w1, r) ->
  evolves ticket w w1.
Proof.
  intros H. unfold __ttm_bo_reserve, next_event in H.
  destruct w as [rv l a s t].
  destruct ticket as [t0|]; cbn [is_null] in H.
  all: destruct (lock_of _ b) as [[|]|];
    try (destruct s as [|[] s]); try destruct intr;
    inversion H; subst; clear H; evolve_facts.
Qed.

Lemma evolves_reserve_shared ticket w b n w1 r :
  dma_resv_reserve_shared w b n = (w1, r) -> evolves ticket w w1.
Proof.
  intros H. unfold dma_resv_reserve_shared, next_event in H.
  destruct w as [rv l a s t].
  destruct s as [|[] s]; inversion H; subst; clear H; evolve_facts.
Qed.

Lemma evolves_lock_slow_interruptible ticket w b w1 r :
  ticket <> None ->
  dma_resv_lock_slow_interruptible w b ticket = (w1, r) -> evolves ticket w w1.
Proof.
  intros Ht H. unfold dma_resv_lock_slow_interruptible, next_event in H.
  destruct w as [rv l a s t].
  destruct s as [|[] s]; inversion H; subst; clear H; evolve_facts.
Qed.

Lemma evolves_lock_slow ticket w b :
  ticket <> None -> evolves ticket w (dma_resv_lock_slow w b ticket).
Proof.
  intros Ht. unfold dma_resv_lock_slow, next_event.
  destruct w as [rv l a s t].
  destruct s as [|ev s]; evolve_facts.
Qed.

Lemma evolves_unlock ticket w b : evolves ticket w (dma_resv_unlock w b).
Proof. unfold dma_resv_unlock. destruct w as [rv l a s t]. evolve_facts. Qed.

Lemma evolves_unlock_all ticket bs : forall w, evolves ticket w (unlock_all w bs).
Proof.
  unfold unlock_all.
  induction bs as [|b bs IH]; intros w; [apply evolves_refl|].
  simpl. apply evolves_trans with (dma_resv_unlock w b);
    [apply evolves_unlock|apply IH].
Qed.

Lemma ttm_bo_reserve_ticketless w b intr w1 r :
  __ttm_bo_reserve w b intr true None = (w1, r) -> r = 0 \/ r = - EBUSY.
Proof.
  unfold __ttm_bo_reserve, next_event.
  destruct (lock_of w b); [intros H; inversion H; now right|].
  destruct (script w) as [|[] s]; intros H; inversion H; auto.
Qed.

Lemma evolves_reserve_slots ticket w1 e r1 w2 r2 :
  reserve_slots w1 e r1 = (w2, r2) ->
  evolves ticket w1 w2 /\
  (r2 = 0 -> num_shared e <> 0%nat -> has_room w2 e).
Proof.
  unfold reserve_slots. intros H.
  destruct (Z.eqb_spec r1 0) as [E|N].
  - destruct (Nat.eqb_spec (num_shared e) 0) as [E0|N0].
    + inversion H; subst. split; [apply evolves_refl|congruence].
    + split; [now apply evolves_reserve_shared with (bo e) (num_shared e) r2|].
      intros -> _. apply reserve_shared_cases in H.
      destruct H as (_ & _ & _ & _ & _ & [[_ Hroom]|E']); [exact Hroom|discriminate E'].
  - inversion H; subst. split; [apply evolves_refl|congruence].
Qed.

Lemma evolves_recover ticket intr w e r w5 r5 :
  recover ticket intr w e r = (w5, r5) ->
  (r = - EDEADLK -> ticket <> None) ->
  evolves ticket w w5 /\
  (r <> 0 -> r5 = 0 -> num_shared e <> 0%nat -> has_room w5 e).
Proof.
  unfold recover. intros H Ht.
  destruct (Z.eqb_spec r (- EDEADLK)) as [E|N].
  - specialize (Ht E).
    assert (Hslow : exists w4 r4,
              (if intr then dma_resv_lock_slow_interruptible w (bo e) ticket
               else (dma_resv_lock_slow w (bo e) ticket, 0)) = (w4, r4) /\
              evolves ticket w w4).
    { destruct intr.
      - destruct (dma_resv_lock_slow_interruptible w (bo e) ticket) as [w4 r4] eqn:E4.
        exists w4, r4. split; [reflexivity|].
        now apply evolves_lock_slow_interruptible with (bo e) r4.
      - eexists _, 0. split; [reflexivity|]. now apply evolves_lock_slow. }
    destruct Hslow as (w4 & r4 & E4 & Hev4). rewrite E4 in H.
    destruct (Z.eqb_spec r4 0) as [E40|N40]; cbn [andb] in H.
    + destruct (Nat.eqb_spec (num_shared e) 0) as [E0|N0]; cbn [negb] in H.
      * inversion H; subst. split; [exact Hev4|congruence].
      * split.
        -- apply evolves_trans with w4; [exact Hev4|].
           now apply evolves_reserve_shared with (bo e) (num_shared e) r5.
        -- intros _ -> _. apply reserve_shared_cases in H.
           destruct H as (_ & _ & _ & _ & _ & [[_ Hroom]|E']);
             [exact Hroom|discriminate E'].
    + inversion H; subst. split; [exact Hev4|congruence].
  - destruct (Z.eqb_spec r 0) as [E0|N0]; cbn [andb] in H.
    + split; [|congruence].
      destruct (Nat.eqb (num_shared e) 0); cbn [negb] in H.
      * inversion H; subst. apply evolves_refl.
      * now apply evolves_reserve_shared with (bo e) (num_shared e) r5.
    + inversion H; subst. split; [apply evolves_refl|congruence].
Qed.

(** The four ways an iteration of the scan can go: the entry is a
    duplicate and leaves the list, the entry is locked and the cursor moves
    on, the entry is locked by the slow path and goes to the front, or the
    reservation fails. *)
Lemma reserve_loop_cases fuel ticket intr w prev e next dups :
  (exists w1 d,
     dups = Some d /\ evolves ticket w w1 /\
     reserve_loop (S fuel) ticket intr w (prev ++ e :: next) (length prev) dups
     = reserve_loop fuel ticket intr w1 (prev ++ next) (length prev) (Some (e :: d)))
  \/ (exists w2,
        evolves ticket w w2 /\
        (num_shared e <> 0%nat -> has_room w2 e) /\
        reserve_loop (S fuel) ticket intr w (prev ++ e :: next) (length prev) dups
        = reserve_loop fuel ticket intr w2 ((prev ++ [e]) ++ next)
            (length (prev ++ [e])) dups)
  \/ (exists w5,
        evolves ticket w w5 /\
        ticket <> None /\
        (num_shared e <> 0%nat -> has_room w5 e) /\
        reserve_loop (S fuel) ticket intr w (prev ++ e :: next) (length prev) dups
        = reserve_loop fuel ticket intr w5 ([e] ++ (prev ++ next)) (length [e]) dups)
  \/ (exists w5 r,
        evolves ticket w w5 /\
        (r = - EALREADY \/ r = - EBUSY \/ r = - ERESTARTSYS \/ r = - ENOMEM) /\
        (ticket = None -> r = - EBUSY \/ r = - ENOMEM) /\
        (r = - EALREADY -> dups = None) /\
        reserve_loop (S fuel) ticket intr w (prev ++ e :: next) (length prev) dups
        = Some (teardown ticket w5, prev ++ e :: next, dups, r)).
Proof.
  rewrite reserve_loop_step.
  destruct (__ttm_bo_reserve w (bo e) intr (is_null ticket) ticket) as [w1 r1] eqn:E1.
  pose proof (evolves_reserve ticket w (bo e) intr w1 r1 E1) as Hev1.
  assert (Hnt : ticket = None -> r1 = 0 \/ r1 = - EBUSY).
  { intros ->. now apply ttm_bo_reserve_ticketless in E1. }
  destruct (ttm_bo_reserve_cases _ _ _ _ _ _ E1) as (_ & _ & _ & _ & Hc).
  assert (Hcodes : r1 = 0 \/ r1 = - EALREADY \/ r1 = - EDEADLK
                   \/ r1 = - EBUSY \/ r1 = - ERESTARTSYS).
  { destruct Hc as [(E & _) | [(E & _) | ([(E & _) | [E|E]] & _)]]; auto. }
  clear Hc.
  destruct (reserve_slots w1 e r1) as [w2 r2] eqn:E2. cbv beta iota.
  destruct (evolves_reserve_slots ticket _ _ _ _ _ E2) as [Hev2 Hroom2].
  pose proof (evolves_trans _ _ _ _ Hev1 Hev2) as Hev12.
  assert (Hc2 : (r1 <> 0 /\ r2 = r1) \/ (r1 = 0 /\ r2 = 0)
                \/ (r1 = 0 /\ r2 = - ENOMEM)).
  { destruct (reserve_slots_cases _ _ _ _ _ E2) as (_ & _ & _ & _ & H).
    destruct H as [(? & ? & _) | [(? & ?) | (? & ? & _)]]; auto. }
  destruct (recover ticket intr (unlock_all w2 (map bo (rev prev))) e r2)
    as [w5 r5] eqn:E5. cbv beta iota.
  assert (Hdt : r2 = - EDEADLK -> ticket <> None).
  { intros Ed Hn. specialize (Hnt Hn). errno_lia. }
  destruct (evolves_recover ticket intr _ e r2 w5 r5 E5 Hdt) as [Hev5 Hroom5].
  pose proof (evolves_trans _ _ _ _ Hev12
                (evolves_trans _ _ _ _ (evolves_unlock_all ticket _ w2) Hev5)) as Hev.
  assert (Hc5 : r2 <> 0 ->
                (r2 = - EDEADLK /\ (r5 = 0 \/ r5 = - ENOMEM \/ r5 = - EINTR))
                \/ (r2 <> - EDEADLK /\ r5 = r2)).
  { intros N20. destruct (recover_cases _ _ _ _ _ _ _ E5 N20) as (_ & _ & _ & H).
    destruct H as [(? & ? & _) | [(? & ? & _) | [(? & ? & _) | (? & ? & _)]]]; auto. }
  assert (Hrest :
    (exists w2',
        evolves ticket w w2' /\
        (num_shared e <> 0%nat -> has_room w2' e) /\
        (if r2 =? 0 then
           reserve_loop fuel ticket intr w2 (prev ++ e :: next) (S (length prev)) dups
         else if r5 =? 0 then
           reserve_loop fuel ticket intr w5 (e :: prev ++ next) 1 dups
         else Some (teardown ticket w5, prev ++ e :: next, dups, report r5))
        = reserve_loop fuel ticket intr w2' ((prev ++ [e]) ++ next)
            (length (prev ++ [e])) dups)
    \/ (exists w5',
          evolves ticket w w5' /\
          ticket <> None /\
          (num_shared e <> 0%nat -> has_room w5' e) /\
          (if r2 =? 0 then
             reserve_loop fuel ticket intr w2 (prev ++ e :: next) (S (length prev)) dups
           else if r5 =? 0 then
             reserve_loop fuel ticket intr w5 (e :: prev ++ next) 1 dups
           else Some (teardown ticket w5, prev ++ e :: next, dups, report r5))
          = reserve_loop fuel ticket intr w5' ([e] ++ (prev ++ next)) (length [e]) dups)
    \/ (exists w5' r,
          evolves ticket w w5' /\
          (r = - EALREADY \/ r = - EBUSY \/ r = - ERESTARTSYS \/ r = - ENOMEM) /\
          (ticket = None -> r = - EBUSY \/ r = - ENOMEM) /\
          (r = - EALREADY -> r1 = - EALREADY) /\
          (if r2 =? 0 then
             reserve_loop fuel ticket intr w2 (prev ++ e :: next) (S (length prev)) dups
           else if r5 =? 0 then
             reserve_loop fuel ticket intr w5 (e :: prev ++ next) 1 dups
           else Some (teardown ticket w5, prev ++ e :: next, dups, report r5))
          = Some (teardown ticket w5', prev ++ e :: next, dups, r))).
  { destruct (Z.eqb_spec r2 0) as [E20|N20].
    - left. exists w2. split; [exact Hev12|]. split; [now apply Hroom2|].
      now rewrite <- app_assoc, length_app, Nat.add_comm.
    - specialize (Hc5 N20).
      destruct (Z.eqb_spec r5 0) as [E50|N50].
      + right. left. exists w5. split; [exact Hev|].
        split; [apply Hdt; errno_lia|]. split; [now apply Hroom5|reflexivity].
      + right. right. exists w5, (report r5). split; [exact Hev|].
        split; [|split; [|split; [|reflexivity]]]; unfold report;
          destruct (Z.eqb_spec r5 (- EINTR)) as [Ei|Ni].
        * errno_lia.
        * errno_lia.
        * intros Hn. specialize (Hnt Hn). errno_lia.
        * intros Hn. specialize (Hnt Hn). errno_lia.
        * errno_lia.
        * errno_lia. }
  destruct (Z.eqb_spec r1 (- EALREADY)) as [Ea|Na]; [destruct dups as [d|]|].
  - left. exists w1, d. split; [reflexivity|]. split; [exact Hev1|reflexivity].
  - right.
    destruct Hrest as [H|[H|(w5' & r & H1 & H2 & H3 & _ & H5)]]; auto.
    right. right. exists w5', r.
    split; [exact H1|]. split; [exact H2|]. split; [exact H3|].
    split; [reflexivity|exact H5].
  - right.
    destruct Hrest as [H|[H|(w5' & r & H1 & H2 & H3 & H4 & H5)]]; auto.
    right. right. exists w5', r.
    split; [exact H1|]. split; [exact H2|]. split; [exact H3|].
    split; [|exact H5]. intros Er. exfalso. apply Na, H4, Er.
Qed.

Lemma has_room_evolves ticket w w' e :
  evolves ticket w w' -> has_room w e -> has_room w' e.
Proof.
  intros (_ & _ & Hf & _) H. unfold has_room in *.
  destruct (Hf (bo e)) as (_ & -> & Hm). lia.
Qed.

Lemma slots_reserved_evolves ticket w w' l :
  evolves ticket w w' -> slots_reserved w l -> slots_reserved w' l.
Proof.
  intros Hev H e He Hn. apply has_room_evolves with ticket w; auto.
Qed.

Lemma evolves_teardown_fences ticket w :
  lru (teardown ticket w) = lru w /\ same_fences w (teardown ticket w).
Proof. destruct ticket; split; try reflexivity; intros b; simpl; auto. Qed.

(** How the scan ends, seen from the world it started in. *)
Lemma reserve_loop_frame fuel :
  forall ticket intr dups w prev rest w' l' d' r,
    reserve_loop fuel ticket intr w (prev ++ rest) (length prev) dups
    = Some (w', l', d', r) ->
    (r = 0 /\ evolves ticket w w')
    \/ (exists w'',
          evolves ticket w w'' /\ w' = teardown ticket w'' /\
          (r = - EALREADY \/ r = - EBUSY \/ r = - ERESTARTSYS \/ r = - ENOMEM) /\
          (ticket = None -> r = - EBUSY \/ r = - ENOMEM) /\
          (r = - EALREADY -> dups = None)).
Proof.
  induction fuel as [|fuel IH]; intros ticket intr dups w prev rest w' l' d' r H;
    (destruct rest as [|e next];
     [ rewrite reserve_loop_end in H
         by (apply nth_error_None; rewrite length_app; simpl; lia);
       inversion H; subst; left; split; [reflexivity|apply evolves_refl] | ]).
  - simpl in H. rewrite nth_error_middle in H. discriminate.
  - destruct (reserve_loop_cases fuel ticket intr w prev e next dups)
      as [(w1 & d & -> & Hev & E) | [(w2 & Hev & _ & E)
         | [(w5 & Hev & _ & _ & E) | (w5 & r0 & Hev & Hr & Hn & Hal & E)]]];
      rewrite E in H; clear E.
    4: { inversion H; subst. right. exists w5. auto. }
    all: apply IH in H;
      destruct H as [(-> & Hev') | (w'' & Hev' & -> & Hr & Hn & Hal)];
      [ left; split; [reflexivity|now apply evolves_trans with (2 := Hev')]
      | right; exists w''; split; [now apply evolves_trans with (2 := Hev')|];
        repeat split; auto; intros Er; specialize (Hal Er); discriminate || exact Hal ].
Qed.

(** The entries the scan has passed keep the room that was reserved for
    their shared fences. *)
Lemma reserve_loop_slots fuel :
  forall ticket intr dups w prev rest w' l' d',
    slots_reserved w prev ->
    reserve_loop fuel ticket intr w (prev ++ rest) (length prev) dups
    = Some (w', l', d', 0) ->
    slots_reserved w' l'.
Proof.
  induction fuel as [|fuel IH]; intros ticket intr dups w prev rest w' l' d' Hs H;
    (destruct rest as [|e next];
     [ rewrite reserve_loop_end in H
         by (apply nth_error_None; rewrite length_app; simpl; lia);
       inversion H; subst; now rewrite app_nil_r | ]).
  - simpl in H. rewrite nth_error_middle in H. discriminate.
  - destruct (reserve_loop_cases fuel ticket intr w prev e next dups)
      as [(w1 & d & -> & Hev & E) | [(w2 & Hev & Hroom & E)
         | [(w5 & Hev & _ & Hroom & E) | (w5 & r0 & Hev & Hr & Hn & Hal & E)]]];
      rewrite E in H; clear E.
    + apply IH in H; [exact H|]. now apply slots_reserved_evolves with ticket w.
    + apply IH in H; [exact H|].
      intros p Hp Hnp. apply in_app_or in Hp. destruct Hp as [Hp|[<-|[]]].
      * apply has_room_evolves with ticket w; auto.
      * now apply Hroom.
    + apply IH in H; [exact H|].
      intros p [<-|[]] Hnp. now apply Hroom.
    + inversion H; subst. exfalso. errno_lia.
Qed.

(** The scan loses no entry and invents none: the entries that left the
    validate list are those put in front of the duplicates list. *)
Lemma reserve_loop_entries fuel :
  forall ticket intr dups w prev rest w' l' d' r,
    reserve_loop fuel ticket intr w (prev ++ rest) (length prev) dups
    = Some (w', l', d', r) ->
    exists moved,
      dups_grown dups d' moved /\ Permutation (l' ++ moved) (prev ++ rest).
Proof.
  assert (Hsame : forall dups : option (list ttm_validate_buffer),
            dups_grown dups dups []).
  { intros [d|]; simpl; auto. }
  induction fuel as [|fuel IH]; intros ticket intr dups w prev rest w' l' d' r H;
    (destruct rest as [|e next];
     [ rewrite reserve_loop_end in H
         by (apply nth_error_None; rewrite length_app; simpl; lia);
       inversion H; subst; exists []; split; [apply Hsame|now rewrite app_nil_r] | ]).
  - simpl in H. rewrite nth_error_middle in H. discriminate.
  - destruct (reserve_loop_cases fuel ticket intr w prev e next dups)
      as [(w1 & d & -> & Hev & E) | [(w2 & Hev & Hroom & E)
         | [(w5 & Hev & _ & Hroom & E) | (w5 & r0 & Hev & Hr & Hn & Hal & E)]]];
      rewrite E in H; clear E.
    + apply IH in H. destruct H as (moved & Hd & Hp). simpl in Hd.
      exists (moved ++ [e]). split.
      * simpl. rewrite Hd, <- app_assoc. reflexivity.
      * rewrite app_assoc.
        apply Permutation_trans with (e :: prev ++ next);
          [|apply Permutation_middle].
        apply Permutation_trans with (e :: l' ++ moved);
          [apply Permutation_sym, Permutation_cons_append|].
        now constructor.
    + apply IH in H. destruct H as (moved & Hd & Hp).
      exists moved. split; [exact Hd|]. now rewrite <- app_assoc in Hp.
    + apply IH in H. destruct H as (moved & Hd & Hp).
      exists moved. split; [exact Hd|].
      apply Permutation_trans with (1 := Hp). exact (Permutation_middle prev next e).
    + inversion H; subst. exists []. split; [apply Hsame|now rewrite app_nil_r].
Qed.

(* ================================================================== *)
(** ** The reservation as its callers see it *)

Lemma ttm_eu_reserve_buffers_unfold w ticket vlist intr dups res :
  ttm_eu_reserve_buffers w ticket vlist intr dups = Some res ->
  (vlist = [] /\ res = (w, [], dups, 0))
  \/ (vlist <> [] /\
      exists fuel,
        reserve_loop fuel ticket intr (with_ticket w ticket) ([] ++ vlist)
          (length (@nil ttm_validate_buffer)) dups = Some res).
Proof.
  unfold ttm_eu_reserve_buffers, ttm_eu_reserve_buffers_fuel.
  destruct vlist as [|e l]; cbn [list_empty].
  - intros H. inversion H. now left.
  - intros H. right. split; [discriminate|]. eexists. exact H.
Qed.

Lemma evolves_with_ticket_trace ticket w w' :
  evolves ticket (with_ticket w ticket) w' ->
  lru w' = lru w /\ same_fences w w' /\
  (forall t', acquire w' t' = acquire (with_ticket w ticket) t') /\
  exists tr, trace w' = trace w ++ init_calls ticket ++ tr /\
             Forall (scan_call ticket) tr.
Proof.
  intros (Hl & Ha & Hf & tr & Ht & Hc).
  split; [rewrite Hl; now destruct ticket|].
  split; [intros b; destruct (Hf b) as (E1 & E2 & E3); destruct ticket; auto|].
  split; [intros t'; now rewrite Ha|].
  exists tr. split; [|exact Hc]. rewrite Ht.
  destruct ticket; simpl; [now rewrite <- app_assoc|reflexivity].
Qed.

(** X3. [ttm_eu_reserve_buffers] returns 0, [-EALREADY], [-EBUSY],
    [-ERESTARTSYS] or [-ENOMEM]: the contention code [-EDEADLK] and the raw
    [-EINTR] of the slow wait never reach the caller.  [-EALREADY] is only
    returned when no duplicates list was given, and a batch without a
    ticket only fails with [-EBUSY] or [-ENOMEM]. *)
Theorem reserve_return_codes :
  forall w ticket vlist intr dups w' l' d' r,
    ttm_eu_reserve_buffers w ticket vlist intr dups = Some (w', l', d', r) ->
    (r = 0 \/ r = - EALREADY \/ r = - EBUSY \/ r = - ERESTARTSYS \/ r = - ENOMEM) /\
    r <> - EDEADLK /\ r <> - EINTR /\
    (r = - EALREADY -> dups = None) /\
    (ticket = None -> r = 0 \/ r = - EBUSY \/ r = - ENOMEM).
Proof.
  intros w ticket vlist intr dups w' l' d' r H.
  assert (Hmain :
    (r = 0 \/ r = - EALREADY \/ r = - EBUSY \/ r = - ERESTARTSYS \/ r = - ENOMEM) /\
    (r = - EALREADY -> dups = None) /\
    (ticket = None -> r = 0 \/ r = - EBUSY \/ r = - ENOMEM)).
  { apply ttm_eu_reserve_buffers_unfold in H.
    destruct H as [(_ & E) | (_ & fuel & H)].
    - inversion E; subst. repeat split; auto. intros E0. discriminate E0.
    - apply reserve_loop_frame in H.
      destruct H as [(-> & _) | (w'' & _ & _ & Hr & Hn & Hal)].
      + repeat split; auto. intros E0. discriminate E0.
      + split; [tauto|]. split; [exact Hal|]. intros E0. specialize (Hn E0). tauto. }
  destruct Hmain as (Hr & Hal & Hn).
  split; [exact Hr|]. split; [errno_lia|]. split; [errno_lia|]. auto.
Qed.

Lemma reserve_return_codes_witness :
  let R := ttm_eu_reserve_buffers (world0 [] [EvGrant; EvBusy; EvSignal])
             (Some 7%nat) [vb 1 0; vb 2 1] true (Some [vb 9 0]) in
  (result_code R = 0 \/ result_code R = - EALREADY \/ result_code R = - EBUSY
   \/ result_code R = - ERESTARTSYS \/ result_code R = - ENOMEM) /\
  result_code R <> - EDEADLK /\ result_code R <> - EINTR /\
  (result_code R = - EALREADY -> Some [vb 9 0] = None) /\
  (Some 7%nat = None ->
   result_code R = 0 \/ result_code R = - EBUSY \/ result_code R = - ENOMEM).
Proof.
  cbv zeta.
  apply (reserve_return_codes (world0 [] [EvGrant; EvBusy; EvSignal])
           (Some 7%nat) [vb 1 0; vb 2 1] true (Some [vb 9 0])
           (result_world (ttm_eu_reserve_buffers (world0 [] [EvGrant; EvBusy; EvSignal])
                            (Some 7%nat) [vb 1 0; vb 2 1] true (Some [vb 9 0])))
           (result_list (ttm_eu_reserve_buffers (world0 [] [EvGrant; EvBusy; EvSignal])
                           (Some 7%nat) [vb 1 0; vb 2 1] true (Some [vb 9 0])))
           (result_dups (ttm_eu_reserve_buffers (world0 [] [EvGrant; EvBusy; EvSignal])
                           (Some 7%nat) [vb 1 0; vb 2 1] true (Some [vb 9 0])))).
  vm_compute. reflexivity.
Defined.

(** X4. The calls of [ttm_eu_reserve_buffers] on a non-empty list, in
    order: [ww_acquire_init] when there is a ticket, then lock attempts,
    releases, slot reservations and, only for a batch with a ticket, slow
    locks; on failure, and only then, [ww_acquire_done] and
    [ww_acquire_fini] at the end.  No fence is attached, the LRU list is not
    touched and its lock is not taken. *)
Theorem reserve_calls :
  forall w ticket vlist intr dups w' l' d' r,
    ttm_eu_reserve_buffers w ticket vlist intr dups = Some (w', l', d', r) ->
    vlist <> [] ->
    exists tr,
      Forall (scan_call ticket) tr /\
      trace w' = trace w ++ init_calls ticket ++ tr
                   ++ (if Z.eqb r 0 then [] else teardown_calls ticket).
Proof.
  intros w ticket vlist intr dups w' l' d' r H Hne.
  apply ttm_eu_reserve_buffers_unfold in H.
  destruct H as [(E & _) | (_ & fuel & H)]; [congruence|].
  apply reserve_loop_frame in H.
  destruct H as [(-> & Hev) | (w'' & Hev & -> & Hr & _)];
    apply evolves_with_ticket_trace in Hev;
    destruct Hev as (_ & _ & _ & tr & Ht & Hc); exists tr; (split; [exact Hc|]).
  - cbn [Z.eqb]. now rewrite app_nil_r.
  - destruct (teardown_facts ticket w'') as (Htd & _). rewrite Htd, Ht.
    assert (E : (r =? 0) = false) by (apply Z.eqb_neq; errno_lia).
    rewrite E. now rewrite <- !app_assoc.
Qed.

Lemma reserve_calls_witness :
  let R := ttm_eu_reserve_buffers (world0 [] [EvGrant; EvBusy]) None
             [vb 1 0; vb 2 0] true None in
  exists tr,
    Forall (scan_call None) tr /\
    trace (result_world R)
    = trace (world0 [] [EvGrant; EvBusy]) ++ init_calls None ++ tr
        ++ (if Z.eqb (result_code R) 0 then [] else teardown_calls None).
Proof.
  cbv zeta.
  apply (reserve_calls (world0 [] [EvGrant; EvBusy]) None [vb 1 0; vb 2 0] true None
           (result_world (ttm_eu_reserve_buffers (world0 [] [EvGrant; EvBusy]) None
                            [vb 1 0; vb 2 0] true None))
           (result_list (ttm_eu_reserve_buffers (world0 [] [EvGrant; EvBusy]) None
                           [vb 1 0; vb 2 0] true None))
           (result_dups (ttm_eu_reserve_buffers (world0 [] [EvGrant; EvBusy]) None
                           [vb 1 0; vb 2 0] true None))).
  - vm_compute. reflexivity.
  - discriminate.
Defined.

Lemma sample_run_eq :
  ttm_eu_reserve_buffers sample_world (Some 7%nat)
    [vb 1 0; vb 2 1; vb 1 3] true (Some [vb 9 0])
  = Some (result_world sample_run, result_list sample_run,
          result_dups sample_run, result_code sample_run).
Proof. vm_compute. reflexivity. Qed.

Lemma cancelled_run_eq :
  ttm_eu_reserve_buffers (world0 [] [EvGrant; EvBusy; EvSignal]) (Some 7%nat)
    [vb 1 0; vb 2 1] true (Some [vb 9 0])
  = Some (result_world cancelled_run, result_list cancelled_run,
          result_dups cancelled_run, result_code cancelled_run).
Proof. vm_compute. reflexivity. Qed.

(** X5. [ttm_eu_reserve_buffers] leaves the LRU list as it was and attaches
    or drops no fence, whatever it returns; the room for shared fences
    only grows. *)
Theorem reserve_leaves_lru_and_fences :
  forall w ticket vlist intr dups w' l' d' r,
    ttm_eu_reserve_buffers w ticket vlist intr dups = Some (w', l', d', r) ->
    lru w' = lru w /\ same_fences w w'.
Proof.
  intros w ticket vlist intr dups w' l' d' r H.
  apply ttm_eu_reserve_buffers_unfold in H.
  destruct H as [(_ & E) | (_ & fuel & H)].
  - inversion E; subst. split; [reflexivity|apply same_fences_refl].
  - apply reserve_loop_frame in H.
    destruct H as [(_ & Hev) | (w'' & Hev & -> & _)];
      apply evolves_with_ticket_trace in Hev; destruct Hev as (Hl & Hf & _).
    + now split.
    + destruct (evolves_teardown_fences ticket w'') as [Hl' Hf'].
      split; [congruence|now apply same_fences_trans with w''].
Qed.

Lemma reserve_leaves_lru_and_fences_witness :
  lru (result_world sample_run) = lru sample_world /\
  same_fences sample_world (result_world sample_run).
Proof.
  exact (reserve_leaves_lru_and_fences sample_world (Some 7%nat)
           [vb 1 0; vb 2 1; vb 1 3] true (Some [vb 9 0])
           (result_world sample_run) (result_list sample_run)
           (result_dups sample_run) (result_code sample_run) sample_run_eq).
Defined.

(** X6. On a non-empty list, [ttm_eu_reserve_buffers] leaves its ticket
    initialised when it returns 0 and finalised when it fails; every other
    acquire context is as it was. *)
Theorem reserve_ticket_phase :
  forall w ticket vlist intr dups w' l' d' r,
    ttm_eu_reserve_buffers w ticket vlist intr dups = Some (w', l', d', r) ->
    vlist <> [] ->
    forall t', acquire w' t' = phase_after ticket r (acquire w t') t'.
Proof.
  intros w ticket vlist intr dups w' l' d' r H Hne t'.
  apply ttm_eu_reserve_buffers_unfold in H.
  destruct H as [(E & _) | (_ & fuel & H)]; [congruence|].
  apply reserve_loop_frame in H.
  destruct H as [(-> & Hev) | (w'' & Hev & -> & Hr & _)];
    apply evolves_with_ticket_trace in Hev; destruct Hev as (_ & _ & Ha & _).
  - rewrite Ha. unfold phase_after, with_ticket. destruct ticket as [t|]; [|reflexivity].
    cbn [Z.eqb]. reflexivity.
  - assert (E : (r =? 0) = false) by (apply Z.eqb_neq; errno_lia).
    unfold phase_after. rewrite E.
    destruct ticket as [t|]; [|apply Ha].
    cbn [teardown]. unfold ww_acquire_fini, ww_acquire_done. cbn [emit set_phase acquire].
    unfold upd at 1. destruct (Nat.eqb_spec t' t) as [->|N]; [reflexivity|].
    rewrite upd_other by assumption. rewrite Ha.
    unfold with_ticket, ww_acquire_init. cbn [emit set_phase acquire].
    now rewrite upd_other.
Qed.

Lemma reserve_ticket_phase_witness :
  acquire (result_world cancelled_run) 7%nat
  = phase_after (Some 7%nat) (result_code cancelled_run)
      (acquire (world0 [] [EvGrant; EvBusy; EvSignal]) 7%nat) 7%nat.
Proof.
  apply (reserve_ticket_phase (world0 [] [EvGrant; EvBusy; EvSignal]) (Some 7%nat)
           [vb 1 0; vb 2 1] true (Some [vb 9 0])
           (result_world cancelled_run) (result_list cancelled_run)
           (result_dups cancelled_run) (result_code cancelled_run) cancelled_run_eq).
  discriminate.
Defined.

(** X7. When [ttm_eu_reserve_buffers] returns 0 for a batch that held no
    lock before, the batch holds the lock of every entry left in the
    validate list and no other lock, and these entries name pairwise
    distinct resources. *)
Theorem reserve_success_locks_batch :
  forall w ticket vlist intr dups w' l' d',
    nothing_held w ->
    ttm_eu_reserve_buffers w ticket vlist intr dups = Some (w', l', d', 0) ->
    NoDup (map bo l') /\
    forall b, lock_of w' b = Some Self <-> In b (map bo l').
Proof.
  intros w ticket vlist intr dups w' l' d' Hn H.
  destruct (ttm_eu_reserve_buffers_post w ticket vlist intr dups w' l' d' 0 Hn H)
    as (_ & Hinv & _).
  now apply Hinv.
Qed.

Lemma reserve_success_locks_batch_witness :
  NoDup (map bo (result_list sample_run)) /\
  forall b, lock_of (result_world sample_run) b = Some Self
            <-> In b (map bo (result_list sample_run)).
Proof.
  apply (reserve_success_locks_batch sample_world (Some 7%nat)
           [vb 1 0; vb 2 1; vb 1 3] true (Some [vb 9 0])
           (result_world sample_run) (result_list sample_run)
           (result_dups sample_run)).
  - apply nothing_held_world0.
  - exact sample_run_eq.
Defined.

(** X8. When [ttm_eu_reserve_buffers] fails with [-EALREADY], [-EBUSY] or
    [-ERESTARTSYS] for a batch that held no lock before, the batch holds no
    lock afterwards. *)
Theorem reserve_failure_releases_batch :
  forall w ticket vlist intr dups w' l' d' r,
    nothing_held w ->
    ttm_eu_reserve_buffers w ticket vlist intr dups = Some (w', l', d', r) ->
    r <> 0 -> r <> - ENOMEM ->
    nothing_held w'.
Proof.
  intros w ticket vlist intr dups w' l' d' r Hn H Hr0 Hrm.
  destruct (ttm_eu_reserve_buffers_post w ticket vlist intr dups w' l' d' r Hn H)
    as (_ & _ & Hnone & _).
  now apply Hnone.
Qed.

Lemma reserve_failure_releases_batch_witness :
  nothing_held (result_world cancelled_run).
Proof.
  apply (reserve_failure_releases_batch (world0 [] [EvGrant; EvBusy; EvSignal])
           (Some 7%nat) [vb 1 0; vb 2 1] true (Some [vb 9 0])
           (result_world cancelled_run) (result_list cancelled_run)
           (result_dups cancelled_run) (result_code cancelled_run)).
  - apply nothing_held_world0.
  - exact cancelled_run_eq.
  - vm_compute. discriminate.
  - vm_compute. discriminate.
Defined.

(** X9. When [ttm_eu_reserve_buffers] returns 0, the reservation object of
    every entry left in the validate list that asks for shared slots has
    room for that many more shared fences. *)
Theorem reserve_success_reserves_slots :
  forall w ticket vlist intr dups w' l' d',
    ttm_eu_reserve_buffers w ticket vlist intr dups = Some (w', l', d', 0) ->
    forall e, In e l' -> num_shared e <> 0%nat -> has_room w' e.
Proof.
  intros w ticket vlist intr dups w' l' d' H.
  apply ttm_eu_reserve_buffers_unfold in H.
  destruct H as [(_ & E) | (_ & fuel & H)].
  - inversion E; subst. intros e [].
  - apply reserve_loop_slots in H; [exact H|]. intros e [].
Qed.

Lemma reserve_success_reserves_slots_witness :
  has_room (result_world sample_run) (vb 2 1).
Proof.
  apply (reserve_success_reserves_slots sample_world (Some 7%nat)
           [vb 1 0; vb 2 1; vb 1 3] true (Some [vb 9 0])
           (result_world sample_run) (result_list sample_run)
           (result_dups sample_run)).
  - exact sample_run_eq.
  - vm_compute. auto.
  - discriminate.
Defined.

(** X10. [ttm_eu_reserve_buffers] loses no entry and invents none, whatever
    it returns: the validate list it leaves, together with the entries it
    put in front of the duplicates list, is a rearrangement of the list it
    was given; without a duplicates list the validate list is only
    rearranged. *)
Theorem reserve_keeps_entries :
  forall w ticket vlist intr dups w' l' d' r,
    ttm_eu_reserve_buffers w ticket vlist intr dups = Some (w', l', d', r) ->
    exists moved,
      dups_grown dups d' moved /\ Permutation (l' ++ moved) vlist.
Proof.
  intros w ticket vlist intr dups w' l' d' r H.
  apply ttm_eu_reserve_buffers_unfold in H.
  destruct H as [(-> & E) | (_ & fuel & H)].
  - inversion E; subst. exists []. split; [|constructor].
    destruct dups as [d|]; simpl; auto.
  - apply reserve_loop_entries in H. exact H.
Qed.

Lemma reserve_keeps_entries_witness :
  exists moved,
    dups_grown (Some [vb 9 0]) (result_dups sample_run) moved /\
    Permutation (result_list sample_run ++ moved) [vb 1 0; vb 2 1; vb 1 3].
Proof.
  exact (reserve_keeps_entries sample_world (Some 7%nat)
           [vb 1 0; vb 2 1; vb 1 3] true (Some [vb 9 0])
           (result_world sample_run) (result_list sample_run)
           (result_dups sample_run) (result_code sample_run) sample_run_eq).
Defined.

(* ================================================================== *)
(** ** Releasing a batch *)

Lemma backoff_entry_resv w e b :
  fence_excl (resv (backoff_entry w e) b) = fence_excl (resv w b) /\
  fence_shared (resv (backoff_entry w e) b) = fence_shared (resv w b) /\
  shared_max (resv (backoff_entry w e) b) = shared_max (resv w b).
Proof.
  unfold backoff_entry, dma_resv_unlock, ttm_bo_move_to_lru_tail, set_lock,
    set_resv, upd; simpl.
  destruct (Nat.eqb_spec b (bo e)) as [->|N]; simpl; auto.
Qed.

Lemma backoff_sweep_resv l : forall w b,
  fence_excl (resv (fold_left backoff_entry l w) b) = fence_excl (resv w b) /\
  fence_shared (resv (fold_left backoff_entry l w) b) = fence_shared (resv w b) /\
  shared_max (resv (fold_left backoff_entry l w) b) = shared_max (resv w b).
Proof.
  induction l as [|e l IH]; intros w b; [auto|].
  simpl. destruct (IH (backoff_entry w e) b) as (-> & -> & ->).
  apply backoff_entry_resv.
Qed.

Lemma backoff_resv w ticket vlist b :
  resv (ttm_eu_backoff_reservation w ticket vlist) b
  = resv (fold_left backoff_entry vlist (spin_lock w)) b.
Proof.
  destruct vlist as [|e l]; [reflexivity|].
  rewrite backoff_nonempty by discriminate. cbv zeta.
  now destruct ticket.
Qed.

(** X12. [ttm_eu_backoff_reservation] frees the lock of every resource of
    the list and leaves every other lock as it was; it attaches no fence
    and drops none, on any resource. *)
Theorem backoff_releases_and_keeps_fences :
  forall w ticket vlist b,
    lock_of (ttm_eu_backoff_reservation w ticket vlist) b
    = (if existsb (Nat.eqb b) (map bo vlist) then None else lock_of w b) /\
    fence_excl (resv (ttm_eu_backoff_reservation w ticket vlist) b)
    = fence_excl (resv w b) /\
    fence_shared (resv (ttm_eu_backoff_reservation w ticket vlist) b)
    = fence_shared (resv w b) /\
    shared_max (resv (ttm_eu_backoff_reservation w ticket vlist) b)
    = shared_max (resv w b).
Proof.
  intros w ticket vlist b. unfold lock_of. rewrite backoff_resv.
  split; [|apply (backoff_sweep_resv vlist (spin_lock w) b)].
  apply (sweep_lock backoff_entry backoff_entry_lock vlist (spin_lock w) b).
Qed.

Lemma fence_entry_shared_max f w e b :
  shared_max (resv (fence_entry f w e) b) = shared_max (resv w b).
Proof.
  unfold fence_entry, dma_resv_unlock, ttm_bo_move_to_lru_tail,
    dma_resv_add_shared_fence, dma_resv_add_excl_fence, set_lock, set_resv, upd.
  destruct (Nat.eqb (num_shared e) 0); simpl;
    destruct (Nat.eqb_spec b (bo e)) as [->|N]; simpl;
    rewrite ?Nat.eqb_refl; auto.
Qed.

Lemma fence_sweep_shared_max f l : forall w b,
  shared_max (resv (fold_left (fence_entry f) l w) b) = shared_max (resv w b).
Proof.
  induction l as [|e l IH]; intros w b; [reflexivity|].
  simpl. rewrite IH. apply fence_entry_shared_max.
Qed.

Lemma fence_resv w ticket vlist f b :
  resv (ttm_eu_fence_buffer_objects w ticket vlist f) b
  = resv (fold_left (fence_entry f) vlist (spin_lock w)) b.
Proof.
  destruct vlist as [|e l]; [reflexivity|].
  rewrite fence_nonempty by discriminate. cbv zeta.
  now destruct ticket.
Qed.

(** The fences of an entry after the fence sweep of a list of distinct
    resources. *)
Lemma fence_sweep_entry f l e : forall w,
  NoDup (map bo l) -> In e l ->
  fence_excl (resv (fold_left (fence_entry f) l w) (bo e))
  = (if Nat.eqb (num_shared e) 0 then Some f else fence_excl (resv w (bo e))) /\
  fence_shared (resv (fold_left (fence_entry f) l w) (bo e))
  = (if Nat.eqb (num_shared e) 0 then [] else fence_shared (resv w (bo e)) ++ [f]).
Proof.
  intros w Hnd Hin.
  apply in_split in Hin. destruct Hin as (l1 & l2 & ->).
  rewrite map_app in Hnd. simpl in Hnd.
  pose proof (NoDup_remove_2 _ _ _ Hnd) as Hout.
  rewrite fold_left_app. simpl.
  rewrite fence_sweep_resv_other by (intros H; apply Hout, in_or_app; now right).
  destruct (fence_entry_resv_at f (fold_left (fence_entry f) l1 w) e) as [-> ->].
  rewrite fence_sweep_resv_other by (intros H; apply Hout, in_or_app; now left).
  split; reflexivity.
Qed.

(** X13. [ttm_eu_fence_buffer_objects] frees the lock of every resource of
    the list, and leaves the reservation object of every resource that is
    not in the list (lock, fences and room) exactly as it was; it changes
    the room for shared fences of no resource. *)
Theorem fence_releases_list_only :
  forall w ticket vlist fence b,
    lock_of (ttm_eu_fence_buffer_objects w ticket vlist fence) b
    = (if existsb (Nat.eqb b) (map bo vlist) then None else lock_of w b) /\
    shared_max (resv (ttm_eu_fence_buffer_objects w ticket vlist fence) b)
    = shared_max (resv w b) /\
    (~ In b (map bo vlist) ->
     resv (ttm_eu_fence_buffer_objects w ticket vlist fence) b = resv w b).
Proof.
  intros w ticket vlist fence b. unfold lock_of. rewrite fence_resv.
  split; [apply (sweep_lock (fence_entry fence) (fence_entry_lock fence)
                   vlist (spin_lock w) b)|].
  split; [apply (fence_sweep_shared_max fence vlist (spin_lock w) b)|].
  apply (fence_sweep_resv_other fence vlist (spin_lock w) b).
Qed.

Lemma fence_releases_list_only_witness :
  let w := result_world sample_run in
  lock_of (ttm_eu_fence_buffer_objects w (Some 7%nat) [vb 2 1] 9%nat) 1%nat
  = (if existsb (Nat.eqb 1%nat) (map bo [vb 2 1]) then None else lock_of w 1%nat) /\
  shared_max (resv (ttm_eu_fence_buffer_objects w (Some 7%nat) [vb 2 1] 9%nat) 1%nat)
  = shared_max (resv w 1%nat) /\
  resv (ttm_eu_fence_buffer_objects w (Some 7%nat) [vb 2 1] 9%nat) 1%nat
  = resv w 1%nat.
Proof.
  cbv zeta.
  destruct (fence_releases_list_only (result_world sample_run) (Some 7%nat)
              [vb 2 1] 9%nat 1%nat) as (H1 & H2 & H3).
  split; [exact H1|]. split; [exact H2|].
  apply H3. simpl. intros [E|[]]. discriminate E.
Defined.

(* ================================================================== *)
(** ** Reserve, then release *)

Lemma reserve_success_state w ticket vlist intr dups w' l' d' :
  nothing_held w ->
  ttm_eu_reserve_buffers w ticket vlist intr dups = Some (w', l', d', 0) ->
  reserve_inv w' l' /\ lru w' = lru w /\ same_fences w w' /\
  slots_reserved w' l'.
Proof.
  intros Hn H.
  destruct (ttm_eu_reserve_buffers_post w ticket vlist intr dups w' l' d' 0 Hn H)
    as (_ & Hinv & _).
  split; [now apply Hinv|].
  apply ttm_eu_reserve_buffers_unfold in H.
  destruct H as [(_ & E) | (_ & fuel & H)].
  - inversion E; subst. split; [reflexivity|].
    split; [apply same_fences_refl|intros e []].
  - pose proof (reserve_loop_slots fuel ticket intr dups _ [] vlist w' l' d'
                  (fun e (He : In e []) => match He with end) H) as Hs.
    apply reserve_loop_frame in H.
    destruct H as [(_ & Hev) | (w'' & _ & _ & Hr & _)]; [|exfalso; errno_lia].
    apply evolves_with_ticket_trace in Hev. destruct Hev as (Hl & Hf & _).
    auto.
Qed.

(** X14. A successful [ttm_eu_reserve_buffers] followed by
    [ttm_eu_backoff_reservation] on the list it left: the batch holds no
    lock any more, the resources of the list stand at the tail of the LRU
    list in list order, and the fences of every resource are those from
    before the reservation. *)
Theorem reserve_then_backoff :
  forall w ticket vlist intr dups w' l' d',
    nothing_held w ->
    ttm_eu_reserve_buffers w ticket vlist intr dups = Some (w', l', d', 0) ->
    let w'' := ttm_eu_backoff_reservation w' ticket l' in
    nothing_held w'' /\
    lru w'' = lru_without (lru w) (map bo l') ++ map bo l' /\
    forall b, fence_excl (resv w'' b) = fence_excl (resv w b) /\
              fence_shared (resv w'' b) = fence_shared (resv w b).
Proof.
  intros w ticket vlist intr dups w' l' d' Hn H. cbv zeta.
  destruct (reserve_success_state w ticket vlist intr dups w' l' d' Hn H)
    as ([Hnd Hh] & Hl & Hf & _).
  split; [|split].
  - intros b. unfold lock_of. rewrite backoff_resv.
    change (lock (resv (fold_left backoff_entry l' (spin_lock w')) b))
      with (lock_of (fold_left backoff_entry l' (spin_lock w')) b).
    rewrite (sweep_lock backoff_entry backoff_entry_lock l' (spin_lock w') b).
    destruct (existsb (Nat.eqb b) (map bo l')) eqn:Ex; [discriminate|].
    intros Hb. apply Hh in Hb. apply existsb_eqb_In in Hb. congruence.
  - rewrite backoff_lru by assumption. now rewrite Hl.
  - intros b. rewrite backoff_resv.
    destruct (backoff_sweep_resv l' (spin_lock w') b) as (-> & -> & _).
    destruct (Hf b) as (E1 & E2 & _). auto.
Qed.

Lemma reserve_then_backoff_witness :
  let w'' := ttm_eu_backoff_reservation (result_world sample_run) (Some 7%nat)
               (result_list sample_run) in
  nothing_held w'' /\
  lru w'' = lru_without (lru sample_world) (map bo (result_list sample_run))
              ++ map bo (result_list sample_run) /\
  forall b, fence_excl (resv w'' b) = fence_excl (resv sample_world b) /\
            fence_shared (resv w'' b) = fence_shared (resv sample_world b).
Proof.
  apply (reserve_then_backoff sample_world (Some 7%nat)
           [vb 1 0; vb 2 1; vb 1 3] true (Some [vb 9 0])
           (result_world sample_run) (result_list sample_run)
           (result_dups sample_run)).
  - apply nothing_held_world0.
  - exact sample_run_eq.
Defined.

(** X15. A successful [ttm_eu_reserve_buffers] followed by
    [ttm_eu_fence_buffer_objects] on the list it left: the batch holds no
    lock any more; an entry with shared count 0 has the fence as exclusive
    fence; an entry with a shared count has the fence added after the
    shared fences it had before the reservation, its exclusive fence
    unchanged, and the shared fences fit in the room of the reservation
    object. *)
Theorem reserve_then_fence :
  forall w ticket vlist intr dups w' l' d' fence,
    nothing_held w ->
    ttm_eu_reserve_buffers w ticket vlist intr dups = Some (w', l', d', 0) ->
    let w'' := ttm_eu_fence_buffer_objects w' ticket l' fence in
    nothing_held w'' /\
    forall e, In e l' ->
      (num_shared e = 0%nat -> fence_excl (resv w'' (bo e)) = Some fence) /\
      (num_shared e <> 0%nat ->
       fence_shared (resv w'' (bo e)) = fence_shared (resv w (bo e)) ++ [fence] /\
       fence_excl (resv w'' (bo e)) = fence_excl (resv w (bo e)) /\
       (length (fence_shared (resv w'' (bo e))) <= shared_max (resv w'' (bo e)))%nat).
Proof.
  intros w ticket vlist intr dups w' l' d' fence Hn H. cbv zeta.
  destruct (reserve_success_state w ticket vlist intr dups w' l' d' Hn H)
    as ([Hnd Hh] & _ & Hf & Hs).
  split.
  - intros b. unfold lock_of. rewrite fence_resv.
    change (lock (resv (fold_left (fence_entry fence) l' (spin_lock w')) b))
      with (lock_of (fold_left (fence_entry fence) l' (spin_lock w')) b).
    rewrite (sweep_lock (fence_entry fence) (fence_entry_lock fence) l' (spin_lock w') b).
    destruct (existsb (Nat.eqb b) (map bo l')) eqn:Ex; [discriminate|].
    intros Hb. apply Hh in Hb. apply existsb_eqb_In in Hb. congruence.
  - intros e He. rewrite !fence_resv.
    destruct (fence_sweep_entry fence l' e (spin_lock w') Hnd He) as (Ee & Es).
    rewrite Ee, Es, fence_sweep_shared_max.
    change (resv (spin_lock w') (bo e)) with (resv w' (bo e)).
    destruct (Hf (bo e)) as (E1 & E2 & _).
    split.
    + intros E0. now rewrite E0.
    + intros N0. pose proof N0 as N0'. apply Nat.eqb_neq in N0'. rewrite N0'.
      rewrite E1, E2. repeat split.
      specialize (Hs e He N0). unfold has_room in Hs. rewrite E2 in Hs.
      rewrite length_app. simpl. lia.
Qed.

Lemma reserve_then_fence_witness :
  let w'' := ttm_eu_fence_buffer_objects (result_world sample_run) (Some 7%nat)
               (result_list sample_run) 9%nat in
  nothing_held w'' /\
  forall e, In e (result_list sample_run) ->
    (num_shared e = 0%nat -> fence_excl (resv w'' (bo e)) = Some 9%nat) /\
    (num_shared e <> 0%nat ->
     fence_shared (resv w'' (bo e)) = fence_shared (resv sample_world (bo e)) ++ [9%nat] /\
     fence_excl (resv w'' (bo e)) = fence_excl (resv sample_world (bo e)) /\
     (length (fence_shared (resv w'' (bo e))) <= shared_max (resv w'' (bo e)))%nat).
Proof.
  apply (reserve_then_fence sample_world (Some 7%nat)
           [vb 1 0; vb 2 1; vb 1 3] true (Some [vb 9 0])
           (result_world sample_run) (result_list sample_run)
           (result_dups sample_run) 9%nat).
  - apply nothing_held_world0.
  - exact sample_run_eq.
Defined.

(** X11. The scan of [ttm_eu_reserve_buffers] ends: when the environment
    has [n] answers left and the list [m] entries, [(n + 1) * (m + 1)]
    iterations are enough for it to return, and allowing more iterations
    does not change what it returns. *)
Theorem reserve_iterations_bounded :
  forall fuel w ticket vlist intr dups,
    (S (length (script w)) * S (length vlist) <= fuel)%nat ->
    exists res,
      ttm_eu_reserve_buffers_fuel fuel w ticket vlist intr dups = Some res /\
      ttm_eu_reserve_buffers w ticket vlist intr dups = Some res.
Proof.
  intros fuel w ticket vlist intr dups Hfuel.
  destruct (ttm_eu_reserve_buffers_returns w ticket vlist intr dups) as [res H].
  exists res. split; [|exact H].
  unfold ttm_eu_reserve_buffers, ttm_eu_reserve_buffers_fuel in *.
  destruct (list_empty vlist); [exact H|].
  apply reserve_loop_fuel_mono with (1 := H). exact Hfuel.
Qed.

Lemma reserve_iterations_bounded_witness :
  exists res,
    ttm_eu_reserve_buffers_fuel 20 sample_world (Some 7%nat)
      [vb 1 0; vb 2 1; vb 1 3] true (Some [vb 9 0]) = Some res /\
    ttm_eu_reserve_buffers sample_world (Some 7%nat)
      [vb 1 0; vb 2 1; vb 1 3] true (Some [vb 9 0]) = Some res.
Proof.
  apply (reserve_iterations_bounded 20 sample_world (Some 7%nat)
           [vb 1 0; vb 2 1; vb 1 3] true (Some [vb 9 0])).
  vm_compute. lia.
Defined.

(* ================================================================== *)
(** ** The states a call passes through *)

Lemma scan_step_eq ticket intr w prev e next dups :
  scan_step ticket intr w prev e next dups
  = let '(w1, r1) := __ttm_bo_reserve w (bo e) intr (is_null ticket) ticket in
    match Z.eqb r1 (- EALREADY), dups with
    | true, Some d => inl (w1, prev, next, Some (e :: d))
    | _, _ =>
        let '(w2, r2) := reserve_slots w1 e r1 in
        if Z.eqb r2 0 then inl (w2, prev ++ [e], next, dups)
        else
          let '(w5, r5) :=
            recover ticket intr (unlock_all w2 (map bo (rev prev))) e r2 in
          if Z.eqb r5 0 then inl (w5, [e], prev ++ next, dups)
          else inr (teardown ticket w5, prev ++ e :: next, dups, report r5)
    end.
Proof.
  unfold scan_step, list_add.
  destruct (__ttm_bo_reserve w (bo e) intr (is_null ticket) ticket) as [w1 r1].
  assert (Hrest :
    (let '(w2, r2) := reserve_slots w1 e r1 in
     if Z.eqb r2 0 then inl (w2, prev ++ [e], next, dups)
     else
       let w3 :=
         ttm_eu_backoff_reservation_reverse w2 (prev ++ e :: next) (length prev) in
       let '(w5, r5) := recover ticket intr w3 e r2 in
       if Z.eqb r5 0 then inl (w5, [e], prev ++ next, dups)
       else inr (teardown ticket w5, prev ++ e :: next, dups, report r5))
    = (let '(w2, r2) := reserve_slots w1 e r1 in
       if Z.eqb r2 0 then @inl scan_state reserve_result (w2, prev ++ [e], next, dups)
       else
         let '(w5, r5) :=
           recover ticket intr (unlock_all w2 (map bo (rev prev))) e r2 in
         if Z.eqb r5 0 then inl (w5, [e], prev ++ next, dups)
         else inr (teardown ticket w5, prev ++ e :: next, dups, report r5))).
  { destruct (reserve_slots w1 e r1) as [w2 r2]. cbv zeta.
    now rewrite backoff_reverse_unlock_all. }
  destruct (Z.eqb r1 (- EALREADY)); [destruct dups as [d|]|]; try exact Hrest.
  reflexivity.
Qed.

(** An iteration of the loop is a step of the scan. *)
Lemma scan_from_step ticket intr fuel w prev e next dups :
  scan_from ticket intr (S fuel) (w, prev, e :: next, dups)
  = match scan_step ticket intr w prev e next dups with
    | inl s' => scan_from ticket intr fuel s'
    | inr res => Some res
    end.
Proof.
  rewrite scan_step_eq. unfold scan_from. rewrite reserve_loop_step.
  destruct (__ttm_bo_reserve w (bo e) intr (is_null ticket) ticket) as [w1 r1].
  assert (Hrest :
    (let '(w2, r2) := reserve_slots w1 e r1 in
     if Z.eqb r2 0 then
       reserve_loop fuel ticket intr w2 (prev ++ e :: next) (S (length prev)) dups
     else
       let '(w5, r5) :=
         recover ticket intr (unlock_all w2 (map bo (rev prev))) e r2 in
       if Z.eqb r5 0 then
         reserve_loop fuel ticket intr w5 (e :: prev ++ next) 1 dups
       else Some (teardown ticket w5, prev ++ e :: next, dups, report r5))
    = match
        (let '(w2, r2) := reserve_slots w1 e r1 in
         if Z.eqb r2 0 then @inl scan_state reserve_result (w2, prev ++ [e], next, dups)
         else
           let '(w5, r5) :=
             recover ticket intr (unlock_all w2 (map bo (rev prev))) e r2 in
           if Z.eqb r5 0 then inl (w5, [e], prev ++ next, dups)
           else inr (teardown ticket w5, prev ++ e :: next, dups, report r5))
      with
      | inl (w', prev', rest', dups') =>
          reserve_loop fuel ticket intr w' (prev' ++ rest') (length prev') dups'
      | inr res => Some res
      end).
  { destruct (reserve_slots w1 e r1) as [w2 r2].
    destruct (Z.eqb r2 0).
    - now rewrite <- app_assoc, length_app, Nat.add_comm.
    - destruct (recover ticket intr _ e r2) as [w5 r5].
      destruct (Z.eqb r5 0); reflexivity. }
  destruct (Z.eqb r1 (- EALREADY)); [destruct dups as [d|]|]; try exact Hrest.
  reflexivity.
Qed.



(** What the loop returns from a state the scan passes through is what it
    returns from the state the scan started in. *)
Lemma scan_reaches_outcome ticket intr s0 s :
  scan_reaches ticket intr s0 s ->
  forall fuel res,
    scan_from ticket intr fuel s = Some res ->
    exists fuel0, scan_from ticket intr fuel0 s0 = Some res.
Proof.
  induction 1 as [|w prev e next dups s' Hr IH E]; intros fuel res H.
  - eauto.
  - apply (IH (S fuel)). rewrite scan_from_step, E. exact H.
Qed.

Lemma scan_reaches_stuck ticket intr w0 p0 d0 s :
  scan_reaches ticket intr (w0, p0, [], d0) s -> s = (w0, p0, [], d0).
Proof.
  induction 1 as [|w prev e next dups s' Hr IH E]; [reflexivity|].
  discriminate IH.
Qed.

Lemma ttm_eu_reserve_buffers_scan fuel w ticket vlist intr dups :
  vlist <> [] ->
  ttm_eu_reserve_buffers_fuel fuel w ticket vlist intr dups
  = scan_from ticket intr fuel (scan_start w ticket vlist dups).
Proof. destruct vlist; [congruence|reflexivity]. Qed.

(** What the loop returns from a state that the scan of a call passes
    through is what the call returns. *)
Lemma scan_reaches_call ticket intr w vlist dups sw prev e next sd fuel res :
  scan_reaches ticket intr (scan_start w ticket vlist dups) (sw, prev, e :: next, sd) ->
  scan_from ticket intr fuel (sw, prev, e :: next, sd) = Some res ->
  ttm_eu_reserve_buffers w ticket vlist intr dups = Some res.
Proof.
  intros Hr H.
  assert (Hne : vlist <> []).
  { intros ->. apply scan_reaches_stuck in Hr. discriminate Hr. }
  destruct (scan_reaches_outcome _ _ _ _ Hr fuel res H) as [fuel0 H0].
  apply ttm_eu_reserve_buffers_fuel_enough with fuel0.
  now rewrite ttm_eu_reserve_buffers_scan.
Qed.


(* ================================================================== *)
(** ** What an iteration does to the scan *)

Lemma ttm_bo_reserve_contended w b intr ticket w1 :
  __ttm_bo_reserve w b intr (is_null ticket) ticket = (w1, - EDEADLK) ->
  lock_of w b <> Some Self /\ ticket <> None.
Proof.
  intros H. unfold __ttm_bo_reserve, next_event in H.
  destruct ticket as [t|]; cbn [is_null] in H.
  - split; [|discriminate]. intros Hs. rewrite Hs in H. inversion H.
  - exfalso. destruct (lock_of w b); [inversion H|].
    destruct (script w) as [|[] ?]; inversion H.
Qed.


(** An iteration that does not end the reservation: the entry was a
    duplicate and left the list, it was locked at once, or it was locked by
    the slow path and went to the front.  In each case the batch holds the
    locks of the entries before the cursor and no other. *)
Lemma scan_step_next ticket intr w prev e next dups w' prev' rest' dups' :
  reserve_inv w prev ->
  scan_step ticket intr w prev e next dups = inl (w', prev', rest', dups') ->
  reserve_inv w' prev' /\
  ( (exists d, dups = Some d /\ dups' = Some (e :: d) /\
               prev' = prev /\ rest' = next /\ In (bo e) (map bo prev))
    \/ (dups' = dups /\ prev' = prev ++ [e] /\ rest' = next /\
        ~ In (bo e) (map bo prev))
    \/ (dups' = dups /\ prev' = [e] /\ rest' = prev ++ next /\
        ~ In (bo e) (map bo prev)) ).
Proof.
  intros Hinv H. rewrite scan_step_eq in H.
  destruct (__ttm_bo_reserve w (bo e) intr (is_null ticket) ticket) as [w1 r1] eqn:E1.
  destruct (ttm_bo_reserve_cases _ _ _ _ _ _ E1) as (_ & _ & _ & _ & Hc).
  destruct Hc as [(-> & Hfree & Hk1) | [(-> & Htk & Hself & Hk1) | (Hr1 & Hk1)]].
  - (* the lock is taken at once *)
    change (0 =? - EALREADY) with false in H. cbv beta iota in H.
    destruct (reserve_slots w1 e 0) as [w2 r2] eqn:E2.
    destruct (reserve_slots_cases _ _ _ _ _ E2)
      as (_ & _ & _ & Hk2 & [(N & _) | [(_ & ->) | (_ & -> & Hn)]]).
    + congruence.
    + change (0 =? 0) with true in H. cbv beta iota in H.
      inversion H; subst. split.
      * apply reserve_inv_snoc with w; auto.
        intros b'. rewrite Hk2. apply Hk1.
      * right. left. repeat split; auto. intros Hin. now apply Hinv in Hin.
    + change (- ENOMEM =? 0) with false in H. cbv beta iota in H.
      destruct (recover ticket intr _ e (- ENOMEM)) as [w5 r5] eqn:E5.
      destruct (recover_cases _ _ _ _ _ _ _ E5) as (_ & _ & _ & Hc5); [discriminate|].
      destruct Hc5 as [(E & _) | [(E & _) | [(E & _) | (_ & -> & ->)]]];
        try discriminate E.
      change (- ENOMEM =? 0) with false in H. discriminate H.
  - (* this ticket holds the lock already *)
    change (- EALREADY =? - EALREADY) with true in H. cbv beta iota in H.
    assert (Hk1' : forall b', lock_of w1 b' = Some Self <-> lock_of w b' = Some Self)
      by (intros b'; now rewrite Hk1).
    destruct dups as [d|].
    + inversion H; subst. split; [now apply reserve_inv_same with w|].
      left. exists d. repeat split; auto. now apply Hinv.
    + change (reserve_slots w1 e (- EALREADY)) with (w1, - EALREADY) in H.
      cbv beta iota in H.
      change (- EALREADY =? 0) with false in H. cbv beta iota in H.
      destruct (recover ticket intr _ e (- EALREADY)) as [w5 r5] eqn:E5.
      destruct (recover_cases _ _ _ _ _ _ _ E5) as (_ & _ & _ & Hc5); [discriminate|].
      destruct Hc5 as [(E & _) | [(E & _) | [(E & _) | (_ & -> & ->)]]];
        try discriminate E.
      change (- EALREADY =? 0) with false in H. discriminate H.
  - (* the lock is refused *)
    assert (Hne : r1 <> 0 /\ r1 <> - EALREADY)
      by (destruct Hr1 as [[-> _]|[->| ->]]; split; discriminate).
    destruct Hne as [Hn0 Hna].
    apply Z.eqb_neq in Hna. rewrite Hna in H. cbv beta iota in H.
    assert (E2 : reserve_slots w1 e r1 = (w1, r1)).
    { unfold reserve_slots. apply Z.eqb_neq in Hn0. now rewrite Hn0. }
    rewrite E2 in H. cbv beta iota in H.
    pose proof Hn0 as Hn0'. apply Z.eqb_neq in Hn0'. rewrite Hn0' in H.
    pose proof (nothing_held_rollback w w1 prev Hinv Hk1) as Hnone.
    destruct (recover ticket intr _ e r1) as [w5 r5] eqn:E5.
    destruct (recover_cases _ _ _ _ _ _ _ E5 Hn0) as (_ & _ & _ & Hc5).
    destruct Hc5 as [(E & -> & Hk5) | [(E & -> & Hs & Hk5)
                    | [(E & -> & Hi & Hk5) | (Hnd & -> & ->)]]].
    + change (0 =? 0) with true in H. cbv beta iota in H.
      inversion H; subst. split.
      * now apply reserve_inv_single with (unlock_all w1 (map bo (rev prev))).
      * right. right. repeat split; auto.
        intros Hin. apply Hinv in Hin.
        now destruct (ttm_bo_reserve_contended _ _ _ _ _ E1).
    + change (- ENOMEM =? 0) with false in H. discriminate H.
    + change (- EINTR =? 0) with false in H. discriminate H.
    + rewrite Hn0' in H. discriminate H.
Qed.


Lemma scan_start_inv w ticket vlist dups :
  nothing_held w -> scan_inv (scan_start w ticket vlist dups).
Proof.
  intros Hn. split; [constructor|]. intros b. simpl.
  split; [|tauto]. intros Hb. apply (Hn b). now destruct ticket.
Qed.

(** In every state the scan passes through, the batch holds the locks of
    the entries before the cursor, which name distinct resources, and no
    other lock. *)
Lemma scan_reaches_inv ticket intr s0 s :
  scan_reaches ticket intr s0 s -> scan_inv s0 -> scan_inv s.
Proof.
  induction 1 as [|w prev e next dups [[[w' prev'] rest'] dups'] Hr IH E];
    intros H0; [exact H0|].
  specialize (IH H0). cbn [scan_inv] in IH |- *.
  now destruct (scan_step_next _ _ _ _ _ _ _ _ _ _ _ IH E).
Qed.

(* ================================================================== *)
(** ** First and later occurrences *)








(* ================================================================== *)
(** ** Calls that meet a terminal failure, a contention or a duplicate *)

(** C9. In a call of [ttm_eu_reserve_buffers] with no duplicates list
    ([dups] is NULL), when the scan comes to an entry whose resource the
    ticket holds already, the call ends there: it returns [-EALREADY], the
    locks taken earlier in the pass are released, last to first, the ticket
    is finalised as the last step, and the batch holds no lock when the
    call returns. *)
Theorem already_reserved_is_terminal :
  forall w t vlist intr sw prev entry next,
    nothing_held w ->
    scan_reaches (Some t) intr (scan_start w (Some t) vlist None)
      (sw, prev, entry :: next, None) ->
    lock_of sw (bo entry) = Some Self ->
    exists w',
      ttm_eu_reserve_buffers w (Some t) vlist intr None
      = Some (w', prev ++ entry :: next, None, - EALREADY) /\
      nothing_held w' /\
      (forall p, In p prev -> lock_of w' (bo p) = None) /\
      acquire w' t = CtxFini /\
      trace w' = trace sw ++ c_reserve (bo entry) (- EALREADY)
                   :: map c_unlock (map bo (rev prev))
                   ++ [c_ww_acquire_done t; c_ww_acquire_fini t].
Proof.
  intros w t vlist intr sw prev entry next Hn Hr Hself.
  pose proof (scan_reaches_inv _ _ _ _ Hr (scan_start_inv w (Some t) vlist None Hn))
    as Hinv. cbn [scan_inv] in Hinv.
  destruct (already_reserved_step 0 t intr sw prev entry next Hinv Hself)
    as (w' & E & Hrest).
  exists w'. split; [|exact Hrest].
  exact (scan_reaches_call _ _ _ _ _ _ _ _ _ _ 1%nat _ Hr E).
Qed.

(** C6. In a call of [ttm_eu_reserve_buffers] for a cancellable batch, when
    the lock attempt on the current entry answers [-EDEADLK] and the slow
    wait that follows is interrupted ([-EINTR]), the call returns
    [-ERESTARTSYS]: the locks taken earlier in the pass were released
    before the wait, the ticket is finalised ([ww_acquire_done],
    [ww_acquire_fini]) as the last step, and the batch holds no lock when
    the call returns. *)
Theorem interrupted_slow_wait_cancels :
  forall w t vlist dups sw prev entry next sd w1 w2,
    nothing_held w ->
    scan_reaches (Some t) true (scan_start w (Some t) vlist dups)
      (sw, prev, entry :: next, sd) ->
    __ttm_bo_reserve sw (bo entry) true false (Some t) = (w1, - EDEADLK) ->
    dma_resv_lock_slow_interruptible
      (ttm_eu_backoff_reservation_reverse w1 (prev ++ entry :: next) (length prev))
      (bo entry) (Some t) = (w2, - EINTR) ->
    exists w',
      ttm_eu_reserve_buffers w (Some t) vlist true dups
      = Some (w', prev ++ entry :: next, sd, - ERESTARTSYS) /\
      nothing_held w' /\
      (forall p, In p prev -> lock_of w' (bo p) = None) /\
      acquire w' t = CtxFini /\
      trace w' = trace sw ++ c_reserve (bo entry) (- EDEADLK)
                   :: map c_unlock (map bo (rev prev))
                   ++ [c_lock_slow (bo entry) (- EINTR);
                       c_ww_acquire_done t; c_ww_acquire_fini t].
Proof.
  intros w t vlist dups sw prev entry next sd w1 w2 Hn Hr E1 E2.
  pose proof (scan_reaches_inv _ _ _ _ Hr (scan_start_inv w (Some t) vlist dups Hn))
    as Hinv. cbn [scan_inv] in Hinv.
  destruct (interrupted_slow_wait_step 0 t sw prev entry next sd w1 w2 Hinv E1 E2)
    as (w' & E & Hrest).
  exists w'. split; [|exact Hrest].
  exact (scan_reaches_call _ _ _ _ _ _ _ _ _ _ 1%nat _ Hr E).
Qed.

(** C7 (as amended). In a call of [ttm_eu_reserve_buffers], when the lock
    attempt on the current entry answers [-EDEADLK] and the slow path then
    takes the lock (and the slots), the entry goes to the front of the
    validate list and the scan goes on with the entry after it: every other
    entry of the list is ahead of the cursor again, and what the call
    returns is what the scan returns from there.  The entries locked
    earlier in the pass were released by the rollback: the batch holds the
    lock of the current entry and no other, and a lock attempt on an entry
    locked earlier is not answered [-EALREADY].  When the call returns 0,
    each of these entries is in the list that is left, with its lock held,
    or was put on the duplicates list after this point. *)
Theorem slow_path_restarts_from_front :
  forall w ticket vlist intr dups sw prev entry next sd w1 w5,
    nothing_held w ->
    scan_reaches ticket intr (scan_start w ticket vlist dups)
      (sw, prev, entry :: next, sd) ->
    __ttm_bo_reserve sw (bo entry) intr (is_null ticket) ticket = (w1, - EDEADLK) ->
    recover ticket intr
      (ttm_eu_backoff_reservation_reverse w1 (prev ++ entry :: next) (length prev))
      entry (- EDEADLK) = (w5, 0) ->
    scan_reaches ticket intr (scan_start w ticket vlist dups)
      (w5, [entry], prev ++ next, sd) /\
    (forall fuel,
       reserve_loop (S fuel) ticket intr sw (prev ++ entry :: next) (length prev) sd
       = reserve_loop fuel ticket intr w5 (list_add entry (prev ++ next)) 1 sd) /\
    (exists fuel res,
       reserve_loop fuel ticket intr w5 (list_add entry (prev ++ next)) 1 sd
       = Some res /\
       ttm_eu_reserve_buffers w ticket vlist intr dups = Some res) /\
    reserve_inv w5 [entry] /\
    (forall p, In p prev ->
       lock_of w5 (bo p) = None /\
       snd (__ttm_bo_reserve w5 (bo p) intr (is_null ticket) ticket) <> - EALREADY) /\
    (forall w' l' d',
       ttm_eu_reserve_buffers w ticket vlist intr dups = Some (w', l', d', 0) ->
       exists moved,
         dups_grown sd d' moved /\
         Permutation (l' ++ moved) (entry :: prev ++ next) /\
         forall p, In p l' -> lock_of w' (bo p) = Some Self).
Proof.
  intros w ticket vlist intr dups sw prev entry next sd w1 w5 Hn Hr E1 E5.
  pose proof (scan_reaches_inv _ _ _ _ Hr (scan_start_inv w ticket vlist dups Hn))
    as Hinv. cbn [scan_inv] in Hinv.
  assert (Hstep : forall fuel,
            reserve_loop (S fuel) ticket intr sw (prev ++ entry :: next) (length prev) sd
            = reserve_loop fuel ticket intr w5 (list_add entry (prev ++ next)) 1 sd
            /\ reserve_inv w5 [entry]
            /\ (forall p, In p prev ->
                  lock_of w5 (bo p) = None /\
                  snd (__ttm_bo_reserve w5 (bo p) intr (is_null ticket) ticket)
                  <> - EALREADY)).
  { intros fuel.
    exact (slow_path_step fuel ticket intr sw prev entry next sd w1 w5 Hinv E1 E5). }
  destruct (Hstep O) as (_ & Hinv5 & Hprev).
  assert (Hret : exists fuel res,
            reserve_loop fuel ticket intr w5 (list_add entry (prev ++ next)) 1 sd
            = Some res /\
            ttm_eu_reserve_buffers w ticket vlist intr dups = Some res).
  { set (fuel := (length (script w5) * S (length ([entry] ++ (prev ++ next)))
                  + length (prev ++ next))%nat).
    destruct (reserve_loop_terminates fuel ticket intr sd w5 [entry] (prev ++ next))
      as [res E]; [unfold fuel; lia|].
    exists fuel, res. split; [exact E|].
    apply (scan_reaches_call _ _ _ _ _ _ _ _ _ _ (S fuel) _ Hr).
    unfold scan_from. destruct (Hstep fuel) as (-> & _). exact E. }
  split.
  { apply reaches_next with sw prev entry next sd; [exact Hr|].
    unfold scan_step. rewrite E1.
    change (- EDEADLK =? - EALREADY) with false. cbv beta iota.
    change (reserve_slots w1 entry (- EDEADLK)) with (w1, - EDEADLK).
    cbv beta iota zeta.
    change (- EDEADLK =? 0) with false. cbv beta iota.
    rewrite E5. reflexivity. }
  split; [intros fuel; apply (Hstep fuel)|].
  split; [exact Hret|].
  split; [exact Hinv5|].
  split; [exact Hprev|].
  intros w' l' d' Hcall.
  destruct Hret as (fuel & res & E & Hcall').
  rewrite Hcall in Hcall'. inversion Hcall'; subst res. clear Hcall'.
  change (list_add entry (prev ++ next)) with ([entry] ++ (prev ++ next)) in E.
  change 1%nat with (length [entry]) in E.
  destruct (reserve_loop_entries _ _ _ _ _ _ _ _ _ _ _ E) as (moved & Hd & Hp).
  exists moved. split; [exact Hd|]. split; [exact Hp|].
  pose proof (reserve_loop_post _ _ _ _ _ _ _ _ _ _ _ Hinv5 E) as Hpost.
  destruct Hpost as (_ & Hok & _). destruct (Hok eq_refl) as [_ Hheld].
  intros p Hp'. apply Hheld. now apply in_map.
Qed.


(* ================================================================== *)
(** ** The scan theorems at work on small batches *)

(** Entries that are locked at once are passed one by one. *)
Lemma scan_reaches_immediate ticket intr s0 mid : forall w prev rest d w',
  immediate_scan ticket intr w mid = Some w' ->
  scan_reaches ticket intr s0 (w, prev, mid ++ rest, d) ->
  scan_reaches ticket intr s0 (w', prev ++ mid, rest, d).
Proof.
  induction mid as [|e mid IH]; intros w prev rest d w' H Hr.
  - simpl in H. inversion H; subst. now rewrite app_nil_r.
  - cbn [immediate_scan] in H.
    destruct (__ttm_bo_reserve w (bo e) intr (is_null ticket) ticket) as [w1 r1] eqn:E1.
    destruct (reserve_slots w1 e r1) as [w2 r2] eqn:E2.
    destruct (Z.eqb_spec r2 0) as [->|N]; [|discriminate].
    pose proof (reserve_slots_zero _ _ _ _ E2) as ->.
    replace (prev ++ e :: mid) with ((prev ++ [e]) ++ mid) by (now rewrite <- app_assoc).
    apply IH with w2; [exact H|].
    apply reaches_next with w prev e (mid ++ rest) d; [exact Hr|].
    unfold scan_step. rewrite E1.
    change (0 =? - EALREADY) with false. cbv beta iota.
    rewrite E2. reflexivity.
Qed.

Lemma scan_reaches_locked_world s t l rest dups :
  immediate_scan (Some t) true (with_ticket (world0 [] s) (Some t)) l
  = Some (locked_world s t l) ->
  scan_reaches (Some t) true (scan_start (world0 [] s) (Some t) (l ++ rest) dups)
    (locked_world s t l, l, rest, dups).
Proof.
  intros H.
  apply (scan_reaches_immediate (Some t) true _ l
           (with_ticket (world0 [] s) (Some t)) [] rest dups (locked_world s t l) H).
  apply reaches_start.
Qed.

Lemma already_reserved_is_terminal_witness :
  exists w',
    ttm_eu_reserve_buffers (world0 [] []) (Some 7%nat)
      ([vb 1 0; vb 2 0] ++ vb 1 3 :: [vb 4 0]) true None
    = Some (w', [vb 1 0; vb 2 0] ++ vb 1 3 :: [vb 4 0], None, - EALREADY) /\
    nothing_held w' /\
    (forall p, In p [vb 1 0; vb 2 0] -> lock_of w' (bo p) = None) /\
    acquire w' 7%nat = CtxFini /\
    trace w' = trace (locked_world [] 7%nat [vb 1 0; vb 2 0])
                 ++ c_reserve (bo (vb 1 3)) (- EALREADY)
                 :: map c_unlock (map bo (rev [vb 1 0; vb 2 0]))
                 ++ [c_ww_acquire_done 7%nat; c_ww_acquire_fini 7%nat].
Proof.
  apply (already_reserved_is_terminal (world0 [] []) 7%nat
           ([vb 1 0; vb 2 0] ++ vb 1 3 :: [vb 4 0]) true
           (locked_world [] 7%nat [vb 1 0; vb 2 0])
           [vb 1 0; vb 2 0] (vb 1 3) [vb 4 0]).
  - apply nothing_held_world0.
  - apply scan_reaches_locked_world. vm_compute. reflexivity.
  - vm_compute. reflexivity.
Defined.

Lemma interrupted_slow_wait_cancels_witness :
  let sw := locked_world [EvGrant; EvBusy; EvSignal] 7%nat [vb 1 0] in
  exists w',
    ttm_eu_reserve_buffers (world0 [] [EvGrant; EvBusy; EvSignal]) (Some 7%nat)
      ([vb 1 0] ++ vb 2 0 :: [vb 3 0]) true (Some [vb 9 0])
    = Some (w', [vb 1 0] ++ vb 2 0 :: [vb 3 0], Some [vb 9 0], - ERESTARTSYS) /\
    nothing_held w' /\
    (forall p, In p [vb 1 0] -> lock_of w' (bo p) = None) /\
    acquire w' 7%nat = CtxFini /\
    trace w' = trace sw ++ c_reserve (bo (vb 2 0)) (- EDEADLK)
                 :: map c_unlock (map bo (rev [vb 1 0]))
                 ++ [c_lock_slow (bo (vb 2 0)) (- EINTR);
                     c_ww_acquire_done 7%nat; c_ww_acquire_fini 7%nat].
Proof.
  cbv zeta.
  apply (interrupted_slow_wait_cancels (world0 [] [EvGrant; EvBusy; EvSignal]) 7%nat
           ([vb 1 0] ++ vb 2 0 :: [vb 3 0]) (Some [vb 9 0])
           (locked_world [EvGrant; EvBusy; EvSignal] 7%nat [vb 1 0])
           [vb 1 0] (vb 2 0) [vb 3 0] (Some [vb 9 0])
           (fst (__ttm_bo_reserve
                   (locked_world [EvGrant; EvBusy; EvSignal] 7%nat [vb 1 0])
                   2%nat true false (Some 7%nat)))
           (fst (dma_resv_lock_slow_interruptible
                   (ttm_eu_backoff_reservation_reverse
                      (fst (__ttm_bo_reserve
                              (locked_world [EvGrant; EvBusy; EvSignal] 7%nat [vb 1 0])
                              2%nat true false (Some 7%nat)))
                      ([vb 1 0] ++ vb 2 0 :: [vb 3 0]) 1)
                   2%nat (Some 7%nat)))).
  - apply nothing_held_world0.
  - apply scan_reaches_locked_world. vm_compute. reflexivity.
  - vm_compute. reflexivity.
  - vm_compute. reflexivity.
Defined.

Lemma slow_path_restarts_from_front_witness :
  let w := world0 [] [EvGrant; EvBusy; EvGrant] in
  let vlist := [vb 1 0] ++ vb 2 0 :: [vb 3 0] in
  let sw := locked_world [EvGrant; EvBusy; EvGrant] 7%nat [vb 1 0] in
  let w1 := fst (__ttm_bo_reserve sw 2%nat true false (Some 7%nat)) in
  let w5 := fst (recover (Some 7%nat) true
                   (ttm_eu_backoff_reservation_reverse w1
                      ([vb 1 0] ++ vb 2 0 :: [vb 3 0]) 1)
                   (vb 2 0) (- EDEADLK)) in
  scan_reaches (Some 7%nat) true (scan_start w (Some 7%nat) vlist (Some []))
    (w5, [vb 2 0], [vb 1 0] ++ [vb 3 0], Some []) /\
  (forall fuel,
     reserve_loop (S fuel) (Some 7%nat) true sw ([vb 1 0] ++ vb 2 0 :: [vb 3 0])
       (length [vb 1 0]) (Some [])
     = reserve_loop fuel (Some 7%nat) true w5
         (list_add (vb 2 0) ([vb 1 0] ++ [vb 3 0])) 1 (Some [])) /\
  (exists fuel res,
     reserve_loop fuel (Some 7%nat) true w5
       (list_add (vb 2 0) ([vb 1 0] ++ [vb 3 0])) 1 (Some []) = Some res /\
     ttm_eu_reserve_buffers w (Some 7%nat) vlist true (Some []) = Some res) /\
  reserve_inv w5 [vb 2 0] /\
  (forall p, In p [vb 1 0] ->
     lock_of w5 (bo p) = None /\
     snd (__ttm_bo_reserve w5 (bo p) true (is_null (Some 7%nat)) (Some 7%nat))
     <> - EALREADY) /\
  (forall w' l' d',
     ttm_eu_reserve_buffers w (Some 7%nat) vlist true (Some [])
     = Some (w', l', d', 0) ->
     exists moved,
       dups_grown (Some []) d' moved /\
       Permutation (l' ++ moved) (vb 2 0 :: [vb 1 0] ++ [vb 3 0]) /\
       forall p, In p l' -> lock_of w' (bo p) = Some Self).
Proof.
  cbv zeta.
  apply (slow_path_restarts_from_front (world0 [] [EvGrant; EvBusy; EvGrant])
           (Some 7%nat) ([vb 1 0] ++ vb 2 0 :: [vb 3 0]) true (Some [])
           (locked_world [EvGrant; EvBusy; EvGrant] 7%nat [vb 1 0])
           [vb 1 0] (vb 2 0) [vb 3 0] (Some [])
           (fst (__ttm_bo_reserve
                   (locked_world [EvGrant; EvBusy; EvGrant] 7%nat [vb 1 0])
                   2%nat true false (Some 7%nat)))).
  - apply nothing_held_world0.
  - apply scan_reaches_locked_world. vm_compute. reflexivity.
  - vm_compute. reflexivity.
  - vm_compute. reflexivity.
Defined.

